(** * Nystrom.cpp: the Nystrom kernel exponential family estimator

    A shallow embedding of
    [src/shogun/distributions/kernel_exp_family/impl/Nystrom.cpp]
    and the properties of its system builder, solver and evaluators.

    Modelling conventions.
    - [float64_t] is modelled by an arbitrary real field [F]: all results
      are statements of exact arithmetic, rounding is not modelled.
    - [index_t] is a 32-bit signed integer.  Sizes and indices are modelled
      by [nat]: every index the code computes from a basis inside [0, N*D)
      is non-negative.  [idx / D] and [idx % D] are [%/] and [%%].  The
      product N*N that [compute_xi_norm_2] converts to a double is taken
      with its 32-bit wrap-around, [index_t_of_nat].
    - [SGVector<T>] is a [seq T]; reading [v[i]] is [nth 0 v i] and writing
      is [set_nth].  Reads and writes outside the allocated length are
      undefined in the source; the theorems assume what keeps the code
      inside its arrays.
    - [SGMatrix<float64_t>] (and an Eigen [Map] of it) is a record of its
      two dimensions and its entry function.
    - A C++ body that ends in [return] yields [Returns v]; [SG_SERROR] and a
      failed [ASSERT] yield [Raises e].
    - A [for (auto i=0; i<n; i++)] loop is [for_loop n body init], the
      iteration of [body] over [0, 1, ..., n-1] on the loop's state.  The
      OpenMP pragmas only reorder independent iterations and are dropped. *)

From HB Require Import structures.
From mathcomp Require Import ssreflect ssrfun ssrbool eqtype ssrnat seq div.
From mathcomp Require Import path bigop order ssralg ssrnum ssrint rat.
From mathcomp Require Import ring_tactic field_tactic arithmetic_tactic.

Set Implicit Arguments.
Unset Strict Implicit.
Unset Printing Implicit Defensive.

Import GRing.Theory Num.Theory Order.Theory.
Local Open Scope ring_scope.

(** ** Control: loops and outcomes *)

Definition for_loop (S : Type) (n : nat) (body : nat -> S -> S) (init : S) : S :=
  foldl (fun s i => body i s) init (iota 0 n).

(** The error kinds of the estimator's interface, and [AssertionFailed]
    for shogun's [ASSERT] macro. *)
Inductive error : Type :=
  | InvalidBasis
  | DimensionMismatch
  | Singular
  | NotImplemented
  | OutOfRange
  | AssertionFailed.

Inductive outcome (A : Type) : Type :=
  | Returns of A
  | Raises of error.

Arguments Raises {A} e.

(** ** Index codec *)

(** [Nystrom::idx_to_ai(idx, D)] *)
Definition idx_to_ai (idx D : nat) : nat * nat := (idx %/ D, idx %% D)%N.

(** ** 32-bit integers *)

(** The value that an [index_t] holds when the mathematical result of an
    operation on index_t values is [n]: the low 32 bits of [n] read as a
    two's-complement number, between -2^31 and 2^31 - 1. *)
Definition index_t_of_nat (n : nat) : int :=
  ((n + 2 ^ 31) %% 2 ^ 32)%N%:Z - (2 ^ 31)%N%:Z.

Section Model.

Variable F : realFieldType.

(** ** Containers *)

Record SGMatrix : Type := mkSGMatrix {
  num_rows : nat;
  num_cols : nat;
  entry : nat -> nat -> F
}.

(** [SGMatrix<float64_t> M(r, c)]: the allocation; its cells are written
    before they are read, their initial content is taken to be zero. *)
Definition SGMatrix_alloc (r c : nat) : SGMatrix := mkSGMatrix r c (fun _ _ => 0).

(** [M(r, c) = x] *)
Definition set_entry (M : SGMatrix) (r c : nat) (x : F) : SGMatrix :=
  mkSGMatrix (num_rows M) (num_cols M)
    (fun r' c' => if (r' == r) && (c' == c) then x else entry M r' c').

(** ** Eigen expressions

    The operations of the Eigen library that the source applies to its
    mapped vectors and matrices, by their defining equations. *)

(** [v.squaredNorm()] *)
Definition squaredNorm (v : seq F) : F := \sum_(x <- v) x * x.

(** [v.maxCoeff()]: the running maximum from the first coefficient on. *)
Definition maxCoeff (v : seq F) : F := foldl Num.max (head 0 v) (behead v).

(** [v.segment(i0, n)] *)
Definition segment (v : seq F) (i0 n : nat) : seq F := take n (drop i0 v).

(** [u + v], [u - v], [-v], [v * a], [c * v], [v / n] on vectors; the
    length is the one of the left operand. *)
Definition eigen_addv (u v : seq F) : seq F :=
  mkseq (fun i => u`_i + v`_i) (size u).
Definition eigen_subv (u v : seq F) : seq F :=
  mkseq (fun i => u`_i - v`_i) (size u).
Definition eigen_oppv (v : seq F) : seq F := [seq - x | x <- v].
Definition eigen_mulv_scalar (v : seq F) (a : F) : seq F := [seq x * a | x <- v].
Definition eigen_scalar_mulv (a : F) (v : seq F) : seq F := [seq a * x | x <- v].
Definition eigen_divv (v : seq F) (a : F) : seq F := [seq x / a | x <- v].

(** [X.transpose()], [X * Y], [X / a], [a * X], [X + Y], [X - Y] on matrices *)
Definition eigen_transpose (X : SGMatrix) : SGMatrix :=
  mkSGMatrix (num_cols X) (num_rows X) (fun r c => entry X c r).
Definition eigen_mul (X Y : SGMatrix) : SGMatrix :=
  mkSGMatrix (num_rows X) (num_cols Y)
    (fun r c => \sum_(0 <= k < num_cols X) entry X r k * entry Y k c).
Definition eigen_div (X : SGMatrix) (a : F) : SGMatrix :=
  mkSGMatrix (num_rows X) (num_cols X) (fun r c => entry X r c / a).
Definition eigen_scale (a : F) (X : SGMatrix) : SGMatrix :=
  mkSGMatrix (num_rows X) (num_cols X) (fun r c => a * entry X r c).
Definition eigen_mul_scalar (X : SGMatrix) (a : F) : SGMatrix :=
  mkSGMatrix (num_rows X) (num_cols X) (fun r c => entry X r c * a).
Definition eigen_add (X Y : SGMatrix) : SGMatrix :=
  mkSGMatrix (num_rows X) (num_cols X) (fun r c => entry X r c + entry Y r c).
Definition eigen_sub (X Y : SGMatrix) : SGMatrix :=
  mkSGMatrix (num_rows X) (num_cols X) (fun r c => entry X r c - entry Y r c).

(** [X * v], a matrix applied to a vector *)
Definition eigen_mulmv (X : SGMatrix) (v : seq F) : seq F :=
  mkseq (fun r => \sum_(0 <= c < num_cols X) entry X r c * v`_c) (num_rows X).

(** [X * d.asDiagonal()] *)
Definition eigen_mul_diag (X : SGMatrix) (d : seq F) : SGMatrix :=
  mkSGMatrix (num_rows X) (size d) (fun r c => entry X r c * d`_c).

(** [A.block(r0, c0, p, q) = R] *)
Definition assign_block (A : SGMatrix) (r0 c0 p q : nat) (R : SGMatrix) : SGMatrix :=
  mkSGMatrix (num_rows A) (num_cols A)
    (fun r c =>
       if [&& r0 <= r, r < r0 + p, c0 <= c & c < c0 + q]%N
       then entry R (r - r0)%N (c - c0)%N else entry A r c).

(** [A.col(c0).segment(r0, p) = v] *)
Definition assign_col_segment (A : SGMatrix) (c0 r0 p : nat) (v : seq F) : SGMatrix :=
  mkSGMatrix (num_rows A) (num_cols A)
    (fun r c =>
       if [&& c == c0, r0 <= r & r < r0 + p]%N
       then v`_(r - r0) else entry A r c).

(** [b.segment(i0, p) = v] *)
Definition assign_segment (b : seq F) (i0 p : nat) (v : seq F) : seq F :=
  mkseq (fun i => if (i0 <= i < i0 + p)%N then v`_(i - i0) else b`_i) (size b).

(** ** The kernel derivative oracle, [kernel::Base] *)

Record kernel_Base : Type := mkKernel {
  dx_component : nat -> nat -> nat -> F;
  dx_dx_component : nat -> nat -> nat -> F;
  dx_dy_component : nat -> nat -> nat -> nat -> F;
  dx_dx_dy_component : nat -> nat -> nat -> nat -> F;
  dx_dx_dy_dy_component : nat -> nat -> nat -> nat -> F;
  dx_i_dx_i_dx_j_component : nat -> nat -> nat -> seq F;
  dx_i_dx_j_component : nat -> nat -> nat -> seq F;
  dx_i_dx_j_dx_k_dx_k_row_sum : nat -> nat -> SGMatrix;
  dx_i_dx_j_dx_k_dx_k_row_sum_component : nat -> nat -> nat -> nat -> F;
  dx_i_dx_j_dx_k_dot_vec : nat -> nat -> seq F -> SGMatrix;
  dx_i_dx_j_dx_k_dot_vec_component : nat -> nat -> seq F -> nat -> nat -> F
}.

(** ** The estimator

    [Base] is the state of the base class (declared in Base.h): what
    [get_num_lhs()] and [get_num_dimensions()] return, the kernel, the
    regulariser and the coefficients written by the fit.  [Nystrom] adds
    its member [m_rkhs_basis_inds]. *)

Record Base : Type := mkBase {
  get_num_lhs : nat;
  get_num_dimensions : nat;
  m_kernel : kernel_Base;
  m_lambda : F;
  m_alpha_beta : seq F
}.

Record Nystrom : Type := mkNystrom {
  base :> Base;
  m_rkhs_basis_inds : seq nat
}.

(** [Nystrom::get_num_rkhs_basis] *)
Definition get_num_rkhs_basis (est : Nystrom) : nat := size (m_rkhs_basis_inds est).

(** [Nystrom::idx_to_ai(idx)] *)
Definition idx_to_ai_of (est : Nystrom) (idx : nat) : nat * nat :=
  idx_to_ai idx (get_num_dimensions est).

(** ** System builder *)

(** [Nystrom::compute_xi_norm_2] *)
Definition compute_xi_norm_2 (est : Nystrom) : F :=
  let N := get_num_lhs est in
  let m := get_num_rkhs_basis est in
  let D := get_num_dimensions est in
  let xi_norm_2 :=
    for_loop m (fun idx xi_norm_2 =>
      for_loop N (fun idx_b xi_norm_2 =>
        for_loop D (fun j xi_norm_2 =>
          let ai := idx_to_ai_of est (nth 0%N (m_rkhs_basis_inds est) idx) in
          xi_norm_2 + dx_dx_dy_dy_component (m_kernel est) ai.1 idx_b ai.2 j)
        xi_norm_2)
      xi_norm_2)
    0 in
  xi_norm_2 / (index_t_of_nat (N * N))%:~R.

(** [Nystrom::compute_h] *)
Definition compute_h (est : Nystrom) : seq F :=
  let m := get_num_rkhs_basis est in
  let D := get_num_dimensions est in
  let N := get_num_lhs est in
  let h := nseq m 0 in
  let h :=
    for_loop m (fun idx h =>
      let bj := idx_to_ai_of est (nth 0%N (m_rkhs_basis_inds est) idx) in
      for_loop N (fun idx_a h =>
        for_loop D (fun i h =>
          set_nth 0 h idx
            (h`_idx + dx_dx_dy_component (m_kernel est) idx_a bj.1 i bj.2))
        h)
      h)
    h in
  eigen_divv h N%:R.

(** The loop of [build_system] that fills [col_sub_sampled_hessian] and
    [sub_sampled_hessian]; its state is the pair of the two matrices. *)
Definition fill_hessians (est : Nystrom) (cs : SGMatrix * SGMatrix) : SGMatrix * SGMatrix :=
  let D := get_num_dimensions est in
  let N := get_num_lhs est in
  let ND := (N * D)%N in
  let m := get_num_rkhs_basis est in
  for_loop m (fun idx cs =>
    let: (col_sub_sampled_hessian, sub_sampled_hessian) := cs in
    let ai := idx_to_ai_of est (nth 0%N (m_rkhs_basis_inds est) idx) in
    let col_sub_sampled_hessian :=
      for_loop ND (fun row_idx col_sub_sampled_hessian =>
        let bj := idx_to_ai_of est row_idx in
        set_entry col_sub_sampled_hessian row_idx idx
          (dx_dy_component (m_kernel est) ai.1 bj.1 ai.2 bj.2))
      col_sub_sampled_hessian in
    let sub_sampled_hessian :=
      for_loop m (fun row_idx sub_sampled_hessian =>
        set_entry sub_sampled_hessian row_idx idx
          (entry col_sub_sampled_hessian
             (nth 0%N (m_rkhs_basis_inds est) row_idx) idx))
      sub_sampled_hessian in
    (col_sub_sampled_hessian, sub_sampled_hessian))
  cs.

(** [Nystrom::build_system] *)
Definition build_system (est : Nystrom) : SGMatrix * seq F :=
  let D := get_num_dimensions est in
  let N := get_num_lhs est in
  let ND := (N * D)%N in
  let m := get_num_rkhs_basis est in
  let A := SGMatrix_alloc m.+1 m.+1 in
  let b := nseq m.+1 0 in
  let h := compute_h est in
  let xi_norm_2 := compute_xi_norm_2 est in
  let: (col_sub_sampled_hessian, sub_sampled_hessian) :=
    fill_hessians est (SGMatrix_alloc ND m, SGMatrix_alloc m m) in
  let A := set_entry A 0 0 (squaredNorm h / N%:R + m_lambda est * xi_norm_2) in
  let A :=
    assign_block A 1 1 m m
      (eigen_add
         (eigen_div
            (eigen_mul (eigen_transpose col_sub_sampled_hessian)
               col_sub_sampled_hessian) N%:R)
         (eigen_scale (m_lambda est) sub_sampled_hessian)) in
  let A :=
    assign_col_segment A 0 1 m
      (eigen_addv (eigen_divv (eigen_mulmv sub_sampled_hessian h) N%:R)
         (eigen_scalar_mulv (m_lambda est) h)) in
  let A := for_loop m (fun idx A => set_entry A 0 idx.+1 (entry A idx.+1 0)) A in
  let b := set_nth 0 b 0 (- xi_norm_2) in
  let b := assign_segment b 1 m (eigen_oppv h) in
  (A, b).

(** ** Evaluators *)

(** [Nystrom::log_pdf] *)
Definition log_pdf (est : Nystrom) (idx_test : nat) : outcome F :=
  let N := get_num_lhs est in
  let m := get_num_rkhs_basis est in
  let: (xi, beta_sum) :=
    for_loop m (fun idx st =>
      let: (xi, beta_sum) := st in
      let ai := idx_to_ai_of est (nth 0%N (m_rkhs_basis_inds est) idx) in
      let xi_grad_i := dx_dx_component (m_kernel est) ai.1 idx_test ai.2 in
      let grad_x_xa_i := dx_component (m_kernel est) ai.1 idx_test ai.2 in
      (xi + xi_grad_i, beta_sum - grad_x_xa_i * (m_alpha_beta est)`_(1 + idx)))
    (0, 0) in
  Returns ((m_alpha_beta est)`_0 * xi / N%:R + beta_sum).

(** [Nystrom::grad] *)
Definition grad (est : Nystrom) (idx_test : nat) : outcome (seq F) :=
  let N := get_num_lhs est in
  let D := get_num_dimensions est in
  let m := get_num_rkhs_basis est in
  let xi_grad := nseq D 0 in
  let beta_sum_grad := nseq D 0 in
  let: (xi_grad, beta_sum_grad) :=
    for_loop m (fun idx st =>
      let: (xi_grad, beta_sum_grad) := st in
      let ai := idx_to_ai_of est (nth 0%N (m_rkhs_basis_inds est) idx) in
      let xi_gradient_mat_component :=
        dx_i_dx_i_dx_j_component (m_kernel est) ai.1 idx_test ai.2 in
      let left_arg_hessian_component :=
        dx_i_dx_j_component (m_kernel est) ai.1 idx_test ai.2 in
      (eigen_subv xi_grad xi_gradient_mat_component,
       eigen_addv beta_sum_grad
         (eigen_mulv_scalar left_arg_hessian_component
            (m_alpha_beta est)`_(1 + idx))))
    (xi_grad, beta_sum_grad) in
  let xi_grad := eigen_mulv_scalar xi_grad ((m_alpha_beta est)`_0 / N%:R) in
  let xi_grad := eigen_addv xi_grad beta_sum_grad in
  Returns xi_grad.

(** The sparse coefficient vector of length N*D that [hessian] and
    [hessian_diag] both build first. *)
Definition beta_full_fake (est : Nystrom) : seq F :=
  let N := get_num_lhs est in
  let D := get_num_dimensions est in
  let m := get_num_rkhs_basis est in
  for_loop m (fun idx beta_full_fake =>
    let ai := idx_to_ai_of est (nth 0%N (m_rkhs_basis_inds est) idx) in
    set_nth 0 beta_full_fake (ai.1 * D + ai.2)%N (m_alpha_beta est)`_(1 + idx))
  (nseq (N * D) 0).

(** [Nystrom::hessian] *)
Definition hessian (est : Nystrom) (idx_test : nat) : outcome SGMatrix :=
  let N := get_num_lhs est in
  let D := get_num_dimensions est in
  let xi_hessian := SGMatrix_alloc D D in
  let beta_sum_hessian := SGMatrix_alloc D D in
  let beta_full_fake := beta_full_fake est in
  let: (xi_hessian, beta_sum_hessian) :=
    for_loop N (fun idx_a st =>
      let: (xi_hessian, beta_sum_hessian) := st in
      let xi_hess_sum :=
        dx_i_dx_j_dx_k_dx_k_row_sum (m_kernel est) idx_a idx_test in
      let xi_hessian := eigen_add xi_hessian xi_hess_sum in
      let beta_a := segment beta_full_fake (idx_a * D) D in
      let beta_hess_sum :=
        dx_i_dx_j_dx_k_dot_vec (m_kernel est) idx_a idx_test beta_a in
      let beta_sum_hessian := eigen_sub beta_sum_hessian beta_hess_sum in
      (xi_hessian, beta_sum_hessian))
    (xi_hessian, beta_sum_hessian) in
  let xi_hessian := eigen_mul_scalar xi_hessian ((m_alpha_beta est)`_0 / N%:R) in
  let xi_hessian := eigen_add xi_hessian beta_sum_hessian in
  Returns xi_hessian.

(** [Nystrom::hessian_diag] *)
Definition hessian_diag (est : Nystrom) (idx_test : nat) : outcome (seq F) :=
  let N := get_num_lhs est in
  let D := get_num_dimensions est in
  let xi_hessian_diag := nseq D 0 in
  let beta_sum_hessian_diag := nseq D 0 in
  let beta_full_fake := beta_full_fake est in
  let: (xi_hessian_diag, beta_sum_hessian_diag) :=
    for_loop N (fun idx_a st =>
      let beta_a := segment beta_full_fake (idx_a * D) D in
      for_loop D (fun i st =>
        let: (xi_hessian_diag, beta_sum_hessian_diag) := st in
        (set_nth 0 xi_hessian_diag i
           (xi_hessian_diag`_i +
            dx_i_dx_j_dx_k_dx_k_row_sum_component (m_kernel est)
              idx_a idx_test i i),
         set_nth 0 beta_sum_hessian_diag i
           (beta_sum_hessian_diag`_i -
            dx_i_dx_j_dx_k_dot_vec_component (m_kernel est)
              idx_a idx_test beta_a i i)))
      st)
    (xi_hessian_diag, beta_sum_hessian_diag) in
  let xi_hessian_diag :=
    eigen_mulv_scalar xi_hessian_diag ((m_alpha_beta est)`_0 / N%:R) in
  let xi_hessian_diag := eigen_addv xi_hessian_diag beta_sum_hessian_diag in
  Returns xi_hessian_diag.

(** [Nystrom::leverage]: [SG_SERROR] throws, the [return] is not reached. *)
Definition leverage (est : Nystrom) : outcome (seq F) := Raises NotImplemented.

(** ** Solver *)

Section Solver.

(** [CMath::MACHINE_EPSILON], a constant of Math.h. *)
Variable MACHINE_EPSILON : F.

(** Eigen's [SelfAdjointEigenSolver<MatrixXd>]: from a matrix to its
    [eigenvalues()] and [eigenvectors()]. *)
Variable SelfAdjointEigenSolver : SGMatrix -> seq F * SGMatrix.

(** The loop of [pinv_self_adjoint] that fills [inv_s]. *)
Definition inv_eigenvalues (m : nat) (s : seq F) (pinv_tol : F) : seq F :=
  for_loop m (fun i inv_s =>
    if s`_i > pinv_tol then set_nth 0 inv_s i (1 / s`_i)
    else set_nth 0 inv_s i 0)
  (nseq m 0).

(** [Nystrom::pinv_self_adjoint] *)
Definition pinv_self_adjoint (A : SGMatrix) : outcome SGMatrix :=
  let m := num_rows A in
  if num_cols A != m then Raises AssertionFailed
  else
    let: (s, V) := SelfAdjointEigenSolver A in
    let pinv_tol := MACHINE_EPSILON * m%:R * maxCoeff s in
    let inv_s := inv_eigenvalues m s pinv_tol in
    let A_pinv := SGMatrix_alloc m m in
    let A_pinv :=
      assign_block A_pinv 0 0 m m
        (eigen_mul (eigen_mul_diag V inv_s) (eigen_transpose V)) in
    Returns A_pinv.

End Solver.

(** ** Basis sampler and constructors *)

Section Sampler.

(** [CMath::permute] and [CMath::qsort] of Math.h.  The first is the
    random shuffle, taken for one state of the random generator. *)
Variable CMath_permute : seq nat -> seq nat.
Variable CMath_qsort : seq nat -> seq nat.

(** Modelled from the spec: [SGVector::range_fill] is declared in
    SGVector.h; it fills the vector with 0, 1, ..., len-1, the set
    {0, ..., N*D-1} that the sampler permutes. *)
Definition range_fill (v : seq nat) : seq nat := iota 0 (size v).

(** [Nystrom::sub_sample_rkhs_basis] *)
Definition sub_sample_rkhs_basis (est : Nystrom) (num_rkhs_basis : nat) : seq nat :=
  let N := get_num_lhs est in
  let D := get_num_dimensions est in
  let permutation := nseq (N * D) 0%N in
  let permutation := range_fill permutation in
  let permutation := CMath_permute permutation in
  let rkhs_basis_inds := nseq num_rkhs_basis 0%N in
  let rkhs_basis_inds :=
    for_loop num_rkhs_basis (fun i rkhs_basis_inds =>
      set_nth 0%N rkhs_basis_inds i (nth 0%N permutation i))
    rkhs_basis_inds in
  CMath_qsort rkhs_basis_inds.

(** [Nystrom::Nystrom(data, kernel, lambda, rkhs_basis_inds)]; [b] is
    the base object that [Base(data, kernel, lambda)] has built. *)
Definition Nystrom_of_basis (b : Base) (rkhs_basis_inds : seq nat) : outcome Nystrom :=
  Returns (mkNystrom b rkhs_basis_inds).

(** [Nystrom::Nystrom(data, kernel, lambda, num_rkhs_basis)]; the member
    is empty while [sub_sample_rkhs_basis] runs on the new object. *)
Definition Nystrom_of_size (b : Base) (num_rkhs_basis : nat) : outcome Nystrom :=
  let self := mkNystrom b [::] in
  Returns (mkNystrom b (sub_sample_rkhs_basis self num_rkhs_basis)).

End Sampler.

(** ** The quantities of the specification

    Written from the words of the specification, to be compared with what
    the code computes.  [(basis_sample est k, basis_coord est k)] is the
    codec of the k-th basis index. *)

Definition basis_sample (est : Nystrom) (k : nat) : nat :=
  (nth 0 (m_rkhs_basis_inds est) k %/ get_num_dimensions est)%N.

Definition basis_coord (est : Nystrom) (k : nat) : nat :=
  (nth 0 (m_rkhs_basis_inds est) k %% get_num_dimensions est)%N.

(** Every basis index lies in [0, N*D). *)
Definition basis_in_range (est : Nystrom) : bool :=
  all (fun k => k < get_num_lhs est * get_num_dimensions est)%N
      (m_rkhs_basis_inds est).

(** The fit has written the m+1 coefficients. *)
Definition fitted (est : Nystrom) : bool :=
  size (m_alpha_beta est) == (get_num_rkhs_basis est).+1.

(** h[k] = (1/N) * sum_b sum_j k_xxy(b, a_k, j, i_k) *)
Definition h_spec (est : Nystrom) (k : nat) : F :=
  (get_num_lhs est)%:R^-1 *
  \sum_(0 <= b < get_num_lhs est) \sum_(0 <= j < get_num_dimensions est)
    dx_dx_dy_component (m_kernel est) b (basis_sample est k) j (basis_coord est k).

(** xi^2 = (1/N^2) * sum_k sum_b sum_j k_xxyy(a_k, b, i_k, j) *)
Definition xi_norm_2_spec (est : Nystrom) : F :=
  ((get_num_lhs est)%:R ^+ 2)^-1 *
  \sum_(0 <= k < get_num_rkhs_basis est) \sum_(0 <= b < get_num_lhs est)
    \sum_(0 <= j < get_num_dimensions est)
      dx_dx_dy_dy_component (m_kernel est)
        (basis_sample est k) b (basis_coord est k) j.

(** G[r,c] = k_xy(a_c, b_r, i_c, j_r) with (b_r, j_r) the codec of r *)
Definition G_spec (est : Nystrom) (r c : nat) : F :=
  dx_dy_component (m_kernel est)
    (basis_sample est c) (r %/ get_num_dimensions est)%N
    (basis_coord est c) (r %% get_num_dimensions est)%N.

(** Ghat[r,c] = G[J[r], c] *)
Definition Ghat_spec (est : Nystrom) (r c : nat) : F :=
  G_spec est (nth 0%N (m_rkhs_basis_inds est) r) c.

(** ** The solver's contract and the largest eigenvalue *)

(** [M] is the largest coefficient of [s]. *)
Definition is_max (M : F) (s : seq F) : Prop :=
  M \in s /\ forall x, x \in s -> x <= M.

(** What Eigen's solver returns on a symmetric matrix of side m: the m
    eigenvalues s and an orthogonal matrix V with A = V diag(s) V^T. *)
Definition eigen_decomposition (A : SGMatrix) (s : seq F) (V : SGMatrix) : Prop :=
  let m := num_rows A in
  [/\ size s = m,
      forall i k, (i < m)%N -> (k < m)%N ->
        \sum_(0 <= j < m) entry V i j * entry V k j = (i == k)%:R,
      forall i k, (i < m)%N -> (k < m)%N ->
        \sum_(0 <= j < m) entry V j i * entry V j k = (i == k)%:R &
      forall r c, (r < m)%N -> (c < m)%N ->
        entry A r c = \sum_(0 <= j < m) entry V r j * s`_j * entry V c j].

(** A solver for diagonal matrices: the diagonal and the identity. *)
Definition diag_solver (A : SGMatrix) : seq F * SGMatrix :=
  (mkseq (fun i => entry A i i) (num_rows A),
   mkSGMatrix (num_rows A) (num_rows A) (fun i j => (i == j)%:R)).

(** The lifted coefficient vector in the words of the sources' comments: a
    sparse version of the coefficients of the same dimension as in the full
    estimator, zero except at the basis indices, where it carries the
    coefficient of that basis entry. *)
Definition lifted_beta (est : Nystrom) (p : nat) : F :=
  if p \in m_rkhs_basis_inds est
  then (m_alpha_beta est)`_(1 + index p (m_rkhs_basis_inds est))
  else 0.

End Model.

(** ** Concrete instances over the rationals *)

(** A kernel oracle whose mixed second derivative is symmetric under the
    exchange of its two arguments, and whose component oracles agree with
    its matrix oracles. *)
Definition example_kernel : kernel_Base rat :=
  mkKernel
    (fun a b i => (a + b + i)%:R)
    (fun a b i => (a * b + i)%:R)
    (fun a b i j => ((a + b) + (i + j))%:R)
    (fun a b i j => (a + 2 * b + i * j)%:R)
    (fun a b i j => (a * b + i + j)%:R)
    (fun a b i => [:: a%:R; (b + i)%:R])
    (fun a b i => [:: i%:R; (a + b)%:R])
    (fun a b => mkSGMatrix 2 2 (fun i j => (a + b + i * j)%:R))
    (fun a b i j => (a + b + i * j)%:R)
    (fun a b v => mkSGMatrix 2 2 (fun i j => (a + b)%:R * v`_i * v`_j))
    (fun a b v i j => (a + b)%:R * v`_i * v`_j).

(** Two samples of two coordinates, basis {0, 3}, fitted coefficients. *)
Definition example_base : Base rat :=
  mkBase 2 2 example_kernel (1 / 2%:R) [:: 1; 2%:R; 3%:R].

Definition example_est : Nystrom rat := mkNystrom example_base [:: 0; 3]%N.

(** The same data with the empty basis and its single coefficient. *)
Definition empty_est : Nystrom rat :=
  mkNystrom (mkBase 2 2 example_kernel (1 / 2%:R) [:: 1]) [::].

(** A kernel oracle whose mixed second derivative is not symmetric. *)
Definition asym_kernel : kernel_Base rat :=
  mkKernel
    (fun a b i => 0) (fun a b i => 0)
    (fun a b i j => if (i < j)%N then 1 else 0)
    (fun a b i j => 0) (fun a b i j => 0)
    (fun a b i => [:: 0; 0]) (fun a b i => [:: 0; 0])
    (fun a b => mkSGMatrix 2 2 (fun i j => 0))
    (fun a b i j => 0)
    (fun a b v => mkSGMatrix 2 2 (fun i j => 0))
    (fun a b v i j => 0).

(** One sample of two coordinates, the full basis {0, 1}. *)
Definition asym_est : Nystrom rat :=
  mkNystrom (mkBase 1 2 asym_kernel 1 [:: 0; 0; 0]) [:: 0; 1]%N.

(** The matrix diag(2, -3). *)
Definition example_matrix : SGMatrix rat :=
  mkSGMatrix 2 2
    (fun i j => if i == j then (if i == 0%N then 2%:R else - 3%:R) else 0).

(** Two samples of two coordinates with the full basis {0, 1, 2, 3}. *)
Definition full_est : Nystrom rat :=
  mkNystrom (mkBase 2 2 example_kernel (1 / 2%:R) [:: 1; 2%:R; 3%:R; 4%:R; 5%:R])
    (iota 0 4).

(** The matrix diag(2, 0). *)
Definition singular_matrix : SGMatrix rat :=
  mkSGMatrix 2 2 (fun i j => if (i == 0%N) && (j == 0%N) then 2%:R else 0).


Section Properties.

Variable F : realFieldType.

(** ** Loops *)

Lemma for_loop0 (S : Type) (body : nat -> S -> S) (s : S) : for_loop 0 body s = s.
Proof. by []. Qed.

Lemma for_loopS (S : Type) (n : nat) (body : nat -> S -> S) (s : S) :
  for_loop n.+1 body s = body n (for_loop n body s).
Proof. by rewrite /for_loop -addn1 iotaD foldl_cat add0n. Qed.

(** The invariant rule: [I k] holds of the state before iteration [k]. *)
Lemma for_loop_inv (S : Type) (I : nat -> S -> Prop) (n : nat)
    (body : nat -> S -> S) (s : S) :
  I 0%N s ->
  (forall i t, (i < n)%N -> I i t -> I i.+1 (body i t)) ->
  I n (for_loop n body s).
Proof.
move=> I0; elim: n => [//|n IH] step; rewrite for_loopS.
by apply: (step) => //; apply: IH => i t lt_in; apply: step; apply: ltnW.
Qed.

Lemma eq_for_loop (S : Type) (n : nat) (body1 body2 : nat -> S -> S) (s : S) :
  (forall i t, (i < n)%N -> body1 i t = body2 i t) ->
  for_loop n body1 s = for_loop n body2 s.
Proof.
elim: n => [//|n IH] E; rewrite !for_loopS IH ?E //.
by move=> i t lt_in; apply: E; apply: ltnW.
Qed.

(** A loop that adds one term per iteration computes a sum. *)
Lemma for_loop_sum (n : nat) (f : nat -> F) (a : F) :
  for_loop n (fun i acc => acc + f i) a = a + \sum_(0 <= i < n) f i.
Proof.
elim: n => [|n IH]; first by rewrite for_loop0 big_geq // addr0.
by rewrite for_loopS IH big_nat_recr //= addrA.
Qed.

(** A loop on a pair of states that never mix runs the two loops. *)
Lemma for_loop_pair (S T : Type) (n : nat) (f : nat -> S -> S)
    (g : nat -> T -> T) (s : S) (t : T) :
  for_loop n (fun i st => let: (a, b) := st in (f i a, g i b)) (s, t) =
  (for_loop n f s, for_loop n g t).
Proof. by elim: n => [//|n IH]; rewrite !for_loopS IH. Qed.

(** ** Vectors *)

Lemma set_nth_same (v : seq F) (i : nat) :
  (i < size v)%N -> set_nth 0 v i v`_i = v.
Proof.
move=> lt_i; apply: (@eq_from_nth _ 0).
  by rewrite size_set_nth; apply/maxn_idPr.
by move=> k _; rewrite nth_set_nth /=; case: eqP => [->|].
Qed.

(** Accumulating into one slot of a vector. *)
Lemma for_loop_slot (n : nat) (f : nat -> F) (idx : nat) (h : seq F) :
  (idx < size h)%N ->
  for_loop n (fun i h => set_nth 0 h idx (h`_idx + f i)) h =
  set_nth 0 h idx (h`_idx + \sum_(0 <= i < n) f i).
Proof.
move=> lt_idx; elim: n => [|n IH].
  by rewrite for_loop0 big_geq // addr0 set_nth_same.
by rewrite for_loopS IH set_set_nth eqxx nth_set_nth /= eqxx big_nat_recr //= addrA.
Qed.

Lemma for_loop_slot2 (n p : nat) (f : nat -> nat -> F) (idx : nat) (h : seq F) :
  (idx < size h)%N ->
  for_loop n (fun a h =>
    for_loop p (fun i h => set_nth 0 h idx (h`_idx + f a i)) h) h =
  set_nth 0 h idx (h`_idx + \sum_(0 <= a < n) \sum_(0 <= i < p) f a i).
Proof.
move=> lt_idx; elim: n => [|n IH].
  by rewrite for_loop0 big_geq // addr0 set_nth_same.
rewrite for_loopS IH for_loop_slot ?size_set_nth ?leq_max ?ltnSn //.
by rewrite set_set_nth eqxx nth_set_nth /= eqxx big_nat_recr //= addrA.
Qed.

(** Writing slot [i] at iteration [i]. *)
Lemma for_loop_slots (T : Type) (x0 : T) (n : nat) (g : nat -> T -> T) (v : seq T) :
  (n <= size v)%N ->
  let w := for_loop n (fun i v => set_nth x0 v i (g i (nth x0 v i))) v in
  size w = size v /\
  forall k, nth x0 w k = if (k < n)%N then g k (nth x0 v k) else nth x0 v k.
Proof.
move=> le_n /=.
pose I k (w : seq T) := size w = size v /\
  forall j, nth x0 w j = if (j < k)%N then g j (nth x0 v j) else nth x0 v j.
have {le_n}: forall i t, (i < n)%N -> I i t -> I i.+1 (set_nth x0 t i (g i (nth x0 t i))).
  move=> i t lt_i [sz_t nth_t]; split.
    by rewrite size_set_nth sz_t; apply/maxn_idPr; apply: leq_trans le_n.
  move=> j; rewrite nth_set_nth /= ltnS leq_eqVlt.
  by case: eqP => [->|_] /=; rewrite nth_t ?ltnn.
by apply: for_loop_inv.
Qed.

(** ** compute_xi_norm_2 and compute_h *)

(** A product that fits into an index_t is not changed by the wrap-around. *)
Lemma index_t_of_nat_small (n : nat) :
  (n < 2 ^ 31)%N -> index_t_of_nat n = n%:Z.
Proof.
move=> lt_n; have lt_n' : (n + 2 ^ 31 < 2 ^ 32)%N.
  by rewrite (expnS 2 31) mul2n -addnn ltn_add2r.
by rewrite /index_t_of_nat modn_small // PoszD addrK.
Qed.

Lemma compute_xi_norm_2_sum (est : Nystrom F) :
  compute_xi_norm_2 est =
  (\sum_(0 <= k < get_num_rkhs_basis est) \sum_(0 <= b < get_num_lhs est)
     \sum_(0 <= j < get_num_dimensions est)
       dx_dx_dy_dy_component (m_kernel est)
         (basis_sample est k) b (basis_coord est k) j)
  / (index_t_of_nat (get_num_lhs est * get_num_lhs est))%:~R.
Proof.
rewrite /compute_xi_norm_2; congr (_ / _).
rewrite -[RHS]add0r -for_loop_sum; apply: eq_for_loop => k acc _.
rewrite -for_loop_sum; apply: eq_for_loop => b acc' _.
by rewrite -for_loop_sum.
Qed.

Lemma compute_xi_norm_2E (est : Nystrom F) :
  (get_num_lhs est * get_num_lhs est < 2 ^ 31)%N ->
  compute_xi_norm_2 est = xi_norm_2_spec est.
Proof.
move=> fits; rewrite compute_xi_norm_2_sum /xi_norm_2_spec.
by rewrite index_t_of_nat_small // -pmulrn natrM -expr2 mulrC.
Qed.

Lemma size_compute_h (est : Nystrom F) :
  size (compute_h est) = get_num_rkhs_basis est.
Proof.
rewrite /compute_h /eigen_divv size_map.
set m := get_num_rkhs_basis est.
pose I (k : nat) (h : seq F) := size h = m.
apply: (@for_loop_inv _ I); first by rewrite /I size_nseq.
move=> i t lt_i sz_t; rewrite /I for_loop_slot2 ?sz_t //.
by rewrite size_set_nth sz_t; apply/maxn_idPr.
Qed.

Lemma nth_compute_h (est : Nystrom F) (k : nat) :
  (k < get_num_rkhs_basis est)%N -> (compute_h est)`_k = h_spec est k.
Proof.
move=> lt_k; rewrite /compute_h /eigen_divv.
set m := get_num_rkhs_basis est in lt_k *.
set body := (X in for_loop m X).
pose S j := \sum_(0 <= b < get_num_lhs est) \sum_(0 <= i < get_num_dimensions est)
  dx_dx_dy_component (m_kernel est) b (basis_sample est j) i (basis_coord est j).
pose I (n : nat) (h : seq F) := size h = m /\
  forall j, h`_j = if (j < n)%N then S j else 0.
have [sz_h nth_h]: I m (for_loop m body (nseq m 0)).
  apply: for_loop_inv; first by split=> [|j]; rewrite ?size_nseq ?nth_nseq ?if_same.
  move=> i t lt_i [sz_t nth_t]; rewrite /body for_loop_slot2 ?sz_t //; split.
    by rewrite size_set_nth sz_t; apply/maxn_idPr.
  move=> j; rewrite nth_set_nth /= ltnS leq_eqVlt.
  by case: eqP => [->|_] /=; rewrite nth_t ?ltnn ?add0r.
by rewrite (nth_map 0) ?sz_h // nth_h lt_k /h_spec mulrC.
Qed.

(** ** Matrices filled by loops *)

Lemma for_loop_set_col (n c : nat) (g : nat -> F) (M : SGMatrix F) :
  let M' := for_loop n (fun r M => set_entry M r c (g r)) M in
  [/\ num_rows M' = num_rows M, num_cols M' = num_cols M &
      forall r' c', entry M' r' c' =
        if (c' == c) && (r' < n)%N then g r' else entry M r' c'].
Proof.
pose I k (M' : SGMatrix F) :=
  [/\ num_rows M' = num_rows M, num_cols M' = num_cols M &
      forall r' c', entry M' r' c' =
        if (c' == c) && (r' < k)%N then g r' else entry M r' c'].
apply: (@for_loop_inv _ I).
  by split=> // r' c'; rewrite ltn0 andbF.
move=> i t _ [rows_t cols_t ent_t]; split=> //= r' c'.
rewrite ent_t ltnS [(r' <= i)%N]leq_eqVlt.
by case: (r' =P i) => [->|_]; case: (c' == c).
Qed.

(** The first row copied from the first column, the last loop of
    [build_system]. *)
Lemma for_loop_mirror (m : nat) (A : SGMatrix F) :
  let A' := for_loop m (fun idx A => set_entry A 0 idx.+1 (entry A idx.+1 0)) A in
  [/\ num_rows A' = num_rows A, num_cols A' = num_cols A &
      forall r c, entry A' r c =
        if (r == 0%N) && (0 < c <= m)%N then entry A c 0 else entry A r c].
Proof.
pose I k (A' : SGMatrix F) :=
  [/\ num_rows A' = num_rows A, num_cols A' = num_cols A &
      forall r c, entry A' r c =
        if (r == 0%N) && (0 < c <= k)%N then entry A c 0 else entry A r c].
apply: (@for_loop_inv _ I).
  by split=> // r c; rewrite leqn0; case: c => [|c]; rewrite ?andbF.
move=> i t _ [rows_t cols_t ent_t]; split=> //= r c.
rewrite !ent_t /= [(c <= i.+1)%N]leq_eqVlt.
by case: (r =P 0%N) => [->|_] //=; case: (c =P i.+1) => [->|ne_c].
Qed.

(** The two sub-sampled kernel Hessians. *)
Lemma fill_hessiansP (est : Nystrom F) :
  basis_in_range est ->
  let ND := (get_num_lhs est * get_num_dimensions est)%N in
  let m := get_num_rkhs_basis est in
  let cs := fill_hessians est (SGMatrix_alloc F ND m, SGMatrix_alloc F m m) in
  [/\ (num_rows cs.1 = ND /\ num_cols cs.1 = m),
      (num_rows cs.2 = m /\ num_cols cs.2 = m),
      (forall r c, (r < ND)%N -> (c < m)%N -> entry cs.1 r c = G_spec est r c) &
      (forall r c, (r < m)%N -> (c < m)%N -> entry cs.2 r c = Ghat_spec est r c)].
Proof.
move=> /all_nthP in_range ND m.
pose I k (cs : SGMatrix F * SGMatrix F) :=
  [/\ (num_rows cs.1 = ND /\ num_cols cs.1 = m),
      (num_rows cs.2 = m /\ num_cols cs.2 = m),
      (forall r c, (r < ND)%N -> (c < k)%N -> entry cs.1 r c = G_spec est r c) &
      (forall r c, (r < m)%N -> (c < k)%N -> entry cs.2 r c = Ghat_spec est r c)].
apply: (@for_loop_inv _ I); first by split.
move=> idx [col sub] lt_idx [/= [rows_c cols_c] [rows_s cols_s] ent_c ent_s].
rewrite /I /=; set col' := for_loop _ _ col.
have [rows_c' cols_c' ent_c'] :
  [/\ num_rows col' = num_rows col, num_cols col' = num_cols col &
      forall r' c', entry col' r' c' =
        if (c' == idx) && (r' < ND)%N then G_spec est r' idx
        else entry col r' c'].
  exact: (for_loop_set_col ND idx (G_spec est ^~ idx) col).
set sub' := for_loop _ _ sub.
have [rows_s' cols_s' ent_s'] :
  [/\ num_rows sub' = num_rows sub, num_cols sub' = num_cols sub &
      forall r' c', entry sub' r' c' =
        if (c' == idx) && (r' < m)%N
        then entry col' (nth 0%N (m_rkhs_basis_inds est) r') idx
        else entry sub r' c'].
  exact: (for_loop_set_col m idx
            (fun r => entry col' (nth 0%N (m_rkhs_basis_inds est) r) idx) sub).
split; rewrite ?rows_c' ?cols_c' ?rows_s' ?cols_s' //.
  move=> r c lt_r; rewrite ltnS leq_eqVlt ent_c' lt_r andbT.
  by case: eqP => [->|_] //=; apply: ent_c.
move=> r c lt_r; rewrite ltnS leq_eqVlt ent_s' lt_r andbT.
case: eqP => [->|_] /=; last exact: ent_s.
by rewrite ent_c' eqxx (in_range 0%N r lt_r).
Qed.

(** ** build_system, entry by entry *)

Lemma squaredNorm_compute_h (est : Nystrom F) :
  squaredNorm (compute_h est) =
  \sum_(0 <= k < get_num_rkhs_basis est) h_spec est k ^+ 2.
Proof.
rewrite /squaredNorm (big_nth 0) size_compute_h.
by apply: eq_big_nat => k /andP [_ lt_k]; rewrite nth_compute_h // expr2.
Qed.

Lemma build_system_shape (est : Nystrom F) :
  let m := get_num_rkhs_basis est in
  [/\ num_rows (build_system est).1 = m.+1,
      num_cols (build_system est).1 = m.+1 &
      size (build_system est).2 = m.+1].
Proof.
rewrite /build_system; case: (fill_hessians _ _) => col sub /=.
set A3 := assign_col_segment _ _ _ _ _.
have /= [-> -> _] := for_loop_mirror (get_num_rkhs_basis est) A3.
by rewrite size_map size_iota size_nseq.
Qed.

Lemma build_system_00 (est : Nystrom F) :
  entry (build_system est).1 0 0 =
  (\sum_(0 <= k < get_num_rkhs_basis est) h_spec est k ^+ 2)
    / (get_num_lhs est)%:R + m_lambda est * compute_xi_norm_2 est.
Proof.
rewrite /build_system; case: (fill_hessians _ _) => col sub /=.
set A3 := assign_col_segment _ _ _ _ _.
have [_ _ ->] := for_loop_mirror (get_num_rkhs_basis est) A3.
by rewrite /= squaredNorm_compute_h.
Qed.

Lemma build_system_block (est : Nystrom F) (r c : nat) :
  basis_in_range est ->
  (r < get_num_rkhs_basis est)%N -> (c < get_num_rkhs_basis est)%N ->
  entry (build_system est).1 r.+1 c.+1 =
  (\sum_(0 <= k < get_num_lhs est * get_num_dimensions est)
      G_spec est k r * G_spec est k c) / (get_num_lhs est)%:R
  + m_lambda est * Ghat_spec est r c.
Proof.
move=> in_range lt_r lt_c; have /= := fill_hessiansP in_range.
rewrite /build_system; case: (fill_hessians _ _) => col sub /=.
move=> [[rows_c cols_c] _ ent_c ent_s].
set A3 := assign_col_segment _ _ _ _ _.
have [_ _ ->] := for_loop_mirror (get_num_rkhs_basis est) A3.
rewrite /= !add1n !ltnS lt_r lt_c /= !subSS !subn0 ent_s // rows_c.
congr (_ / _ + _); apply: eq_big_nat => k /andP [_ lt_k].
by rewrite !ent_c.
Qed.


Lemma build_system_row (est : Nystrom F) (c : nat) :
  (c < get_num_rkhs_basis est)%N ->
  entry (build_system est).1 0 c.+1 = entry (build_system est).1 c.+1 0.
Proof.
move=> lt_c; rewrite /build_system; case: (fill_hessians _ _) => col sub /=.
set A3 := assign_col_segment _ _ _ _ _.
have [_ _ ent] := for_loop_mirror (get_num_rkhs_basis est) A3.
by rewrite !ent /= lt_c.
Qed.

Lemma build_system_b0 (est : Nystrom F) :
  (build_system est).2`_0 = - compute_xi_norm_2 est.
Proof. by rewrite /build_system; case: (fill_hessians _ _) => col sub /=. Qed.


(** ** The evaluators' values *)

Lemma for_loop_diff (n : nat) (f : nat -> F) (a : F) :
  for_loop n (fun i acc => acc - f i) a = a - \sum_(0 <= i < n) f i.
Proof.
elim: n => [|n IH]; first by rewrite for_loop0 big_geq // subr0.
by rewrite for_loopS IH big_nat_recr //= opprD addrA.
Qed.

Lemma log_pdfE (est : Nystrom F) (t : nat) :
  log_pdf est t =
  Returns
    ((m_alpha_beta est)`_0 *
       (\sum_(0 <= k < get_num_rkhs_basis est)
          dx_dx_component (m_kernel est) (basis_sample est k) t (basis_coord est k))
       / (get_num_lhs est)%:R
     - \sum_(0 <= k < get_num_rkhs_basis est)
          dx_component (m_kernel est) (basis_sample est k) t (basis_coord est k)
          * (m_alpha_beta est)`_(1 + k)).
Proof.
rewrite /log_pdf.
rewrite (for_loop_pair _
  (fun idx xi => xi + dx_dx_component (m_kernel est)
     (basis_sample est idx) t (basis_coord est idx))
  (fun idx beta_sum => beta_sum - dx_component (m_kernel est)
     (basis_sample est idx) t (basis_coord est idx)
     * (m_alpha_beta est)`_(1 + idx))).
by rewrite for_loop_sum for_loop_diff !add0r.
Qed.

(** ** hessian and hessian_diag *)

Lemma for_loop_eigen_add (n : nat) (M : nat -> SGMatrix F) (X : SGMatrix F) (i j : nat) :
  entry (for_loop n (fun a X => eigen_add X (M a)) X) i j =
  entry X i j + \sum_(0 <= a < n) entry (M a) i j.
Proof.
elim: n => [|n IH]; first by rewrite for_loop0 big_geq // addr0.
by rewrite for_loopS /= IH big_nat_recr //= addrA.
Qed.

Lemma for_loop_eigen_sub (n : nat) (M : nat -> SGMatrix F) (X : SGMatrix F) (i j : nat) :
  entry (for_loop n (fun a X => eigen_sub X (M a)) X) i j =
  entry X i j - \sum_(0 <= a < n) entry (M a) i j.
Proof.
elim: n => [|n IH]; first by rewrite for_loop0 big_geq // subr0.
by rewrite for_loopS /= IH big_nat_recr //= opprD addrA.
Qed.

(** An outer loop over the samples, an inner loop over the slots of a
    vector of length D: every slot is folded on its own. *)
Lemma for_loop_rows (n D : nat) (op : F -> F -> F) (c : nat -> nat -> F) (v : seq F) :
  size v = D ->
  let w := for_loop n (fun a x =>
             for_loop D (fun i v => set_nth 0 v i (op v`_i (c a i))) x) v in
  size w = D /\
  forall k, (k < D)%N -> w`_k = for_loop n (fun a acc => op acc (c a k)) v`_k.
Proof.
move=> sz_v /=.
pose I k (w : seq F) := size w = D /\
  forall j, (j < D)%N -> w`_j = for_loop k (fun a acc => op acc (c a j)) v`_j.
apply: (@for_loop_inv _ I); first by split.
move=> a x _ [sz_x nth_x].
have le_D : (D <= size x)%N by rewrite sz_x.
have /= [sz_w nth_w] := for_loop_slots 0 (fun i y => op y (c a i)) le_D.
split=> [|j lt_j]; first by rewrite sz_w.
by rewrite nth_w lt_j for_loopS nth_x.
Qed.

Lemma hessianE (est : Nystrom F) (t : nat) :
  exists2 H, hessian est t = Returns H &
    forall i j, entry H i j =
      (\sum_(0 <= a < get_num_lhs est)
         entry (dx_i_dx_j_dx_k_dx_k_row_sum (m_kernel est) a t) i j)
        * ((m_alpha_beta est)`_0 / (get_num_lhs est)%:R)
      - \sum_(0 <= a < get_num_lhs est)
          entry (dx_i_dx_j_dx_k_dot_vec (m_kernel est) a t
                   (segment (beta_full_fake est)
                      (a * get_num_dimensions est) (get_num_dimensions est))) i j.
Proof.
rewrite /hessian.
rewrite (for_loop_pair _
  (fun a X => eigen_add X (dx_i_dx_j_dx_k_dx_k_row_sum (m_kernel est) a t))
  (fun a X => eigen_sub X (dx_i_dx_j_dx_k_dot_vec (m_kernel est) a t
     (segment (beta_full_fake est) (a * get_num_dimensions est)
        (get_num_dimensions est))))).
eexists; first by [].
by move=> i j /=; rewrite for_loop_eigen_add for_loop_eigen_sub /= add0r sub0r.
Qed.

Lemma hessian_diagE (est : Nystrom F) (t : nat) :
  exists2 d, hessian_diag est t = Returns d &
    size d = get_num_dimensions est /\
    forall i, (i < get_num_dimensions est)%N -> d`_i =
      (\sum_(0 <= a < get_num_lhs est)
         dx_i_dx_j_dx_k_dx_k_row_sum_component (m_kernel est) a t i i)
        * ((m_alpha_beta est)`_0 / (get_num_lhs est)%:R)
      - \sum_(0 <= a < get_num_lhs est)
          dx_i_dx_j_dx_k_dot_vec_component (m_kernel est) a t
            (segment (beta_full_fake est)
               (a * get_num_dimensions est) (get_num_dimensions est)) i i.
Proof.
set D := get_num_dimensions est; set N := get_num_lhs est.
pose cx a i := dx_i_dx_j_dx_k_dx_k_row_sum_component (m_kernel est) a t i i.
pose cb a i := dx_i_dx_j_dx_k_dot_vec_component (m_kernel est) a t
  (segment (beta_full_fake est) (a * D) D) i i.
rewrite /hessian_diag -/D -/N.
rewrite (@eq_for_loop _ N _
  (fun a st => let: (x, b) := st in
     (for_loop D (fun i v => set_nth 0 v i (v`_i + cx a i)) x,
      for_loop D (fun i v => set_nth 0 v i (v`_i - cb a i)) b))).
  by move=> a [x b] _; rewrite -for_loop_pair.
rewrite (for_loop_pair N
  (fun a x => for_loop D (fun i v => set_nth 0 v i (v`_i + cx a i)) x)
  (fun a b => for_loop D (fun i v => set_nth 0 v i (v`_i - cb a i)) b)).
have /= [sz_x nth_x] := @for_loop_rows N D +%R cx (nseq D 0) (size_nseq _ _).
have /= [sz_b nth_b] :=
  @for_loop_rows N D (fun x y => x - y) cb (nseq D 0) (size_nseq _ _).
eexists; first by [].
split; first by rewrite size_mkseq size_map.
move=> i lt_i; rewrite nth_mkseq ?size_map ?sz_x // (nth_map 0) ?sz_x //.
by rewrite nth_x // nth_b // nth_nseq lt_i for_loop_sum for_loop_diff add0r sub0r.
Qed.

(** ** C7 *)

(** C7: for a fitted estimator with its basis inside [0, N*D) and a query
    index t in [0, N), if the component oracles return the diagonal entries
    of the matrix oracles, then [hessian_diag] returns the diagonal of what
    [hessian] returns. *)
Theorem hessian_diag_is_diagonal (est : Nystrom F) (t : nat) :
  fitted est -> basis_in_range est -> (t < get_num_lhs est)%N ->
  let N := get_num_lhs est in
  let D := get_num_dimensions est in
  (forall a i, (a < N)%N -> (i < D)%N ->
     entry (dx_i_dx_j_dx_k_dx_k_row_sum (m_kernel est) a t) i i =
     dx_i_dx_j_dx_k_dx_k_row_sum_component (m_kernel est) a t i i) ->
  (forall a v i, (a < N)%N -> (i < D)%N ->
     entry (dx_i_dx_j_dx_k_dot_vec (m_kernel est) a t v) i i =
     dx_i_dx_j_dx_k_dot_vec_component (m_kernel est) a t v i i) ->
  exists H d,
    [/\ hessian est t = Returns H, hessian_diag est t = Returns d,
        size d = D & forall i, (i < D)%N -> d`_i = entry H i i].
Proof.
move=> _ _ _ N D row_sumP dot_vecP.
have [H eqH entH] := hessianE est t.
have [d eqd [sz_d nth_d]] := hessian_diagE est t.
exists H, d; split=> // i lt_i; rewrite nth_d // entH.
congr (_ * _ - _); apply: eq_big_nat => a /andP [_ lt_a].
  by rewrite row_sumP.
by rewrite dot_vecP.
Qed.

(** ** C1 *)


(** ** C6 *)

Lemma codec_in_range (est : Nystrom F) (k : nat) :
  basis_in_range est -> (k < get_num_rkhs_basis est)%N ->
  (basis_sample est k < get_num_lhs est)%N /\
  (basis_coord est k < get_num_dimensions est)%N.
Proof.
move=> /all_nthP in_range lt_k; have lt_J := in_range 0%N k lt_k.
have D_gt0 : (0 < get_num_dimensions est)%N.
  by case: (get_num_dimensions est) lt_J => //; rewrite muln0.
by rewrite /basis_sample /basis_coord ltn_divLR // ltn_pmod.
Qed.

Lemma Ghat_spec_sym (est : Nystrom F) (r c : nat) :
  basis_in_range est ->
  (forall a b i j,
     (a < get_num_lhs est)%N -> (b < get_num_lhs est)%N ->
     (i < get_num_dimensions est)%N -> (j < get_num_dimensions est)%N ->
     dx_dy_component (m_kernel est) a b i j =
     dx_dy_component (m_kernel est) b a j i) ->
  (r < get_num_rkhs_basis est)%N -> (c < get_num_rkhs_basis est)%N ->
  Ghat_spec est r c = Ghat_spec est c r.
Proof.
move=> in_range sym lt_r lt_c.
have [lt_ar lt_ir] := codec_in_range in_range lt_r.
have [lt_ac lt_ic] := codec_in_range in_range lt_c.
by rewrite /Ghat_spec /G_spec -/(basis_sample est r) -/(basis_coord est r) sym.
Qed.

(** C6: for valid inputs, a basis inside [0, N*D) and an oracle whose
    mixed second derivative has the symmetry of a kernel's,
    k_xy(a, b, i, j) = k_xy(b, a, j, i), the matrix A is symmetric in
    exact arithmetic, A[r,c] = A[c,r] for every pair of indices: the first
    row is the mirrored first column, whatever the oracle answers, and the
    inner block G^T G / N + lambda*Ghat is symmetric with G^T G and Ghat. *)
Theorem build_system_symmetric (est : Nystrom F) :
  basis_in_range est ->
  let N := get_num_lhs est in
  let D := get_num_dimensions est in
  let m := get_num_rkhs_basis est in
  let A := (build_system est).1 in
  (forall c, (c <= m)%N -> entry A 0 c = entry A c 0) /\
  ((forall a b i j, (a < N)%N -> (b < N)%N -> (i < D)%N -> (j < D)%N ->
      dx_dy_component (m_kernel est) a b i j =
      dx_dy_component (m_kernel est) b a j i) ->
   forall r c, (r <= m)%N -> (c <= m)%N -> entry A r c = entry A c r).
Proof.
move=> in_range N D m A.
have mirror c : (c <= m)%N -> entry A 0 c = entry A c 0.
  by case: c => [|c] // lt_c; apply: build_system_row.
split=> // sym [|r] [|c] // le_r le_c; first exact: mirror.
  by rewrite -mirror.
rewrite /A !build_system_block // (Ghat_spec_sym in_range sym) //.
by congr (_ / _ + _); apply: eq_big_nat => k _; rewrite mulrC.
Qed.

(** ** C5 *)


(** ** C8 *)

Lemma gradE (est : Nystrom F) (t : nat) :
  exists2 g, grad est t = Returns g & size g = get_num_dimensions est.
Proof.
rewrite /grad; set D := get_num_dimensions est.
set body := (X in for_loop _ X _).
pose I (k : nat) (st : seq F * seq F) := size st.1 = D /\ size st.2 = D.
have: I (get_num_rkhs_basis est) (for_loop (get_num_rkhs_basis est) body
                                    (nseq D 0, nseq D 0)).
  apply: for_loop_inv; first by rewrite /I /= !size_nseq.
  by move=> i [x b] _ [/= sz_x sz_b]; rewrite /I /= !size_mkseq.
case: (for_loop _ _ _) => x b [/= sz_x sz_b].
by eexists; first by []; rewrite size_mkseq size_map.
Qed.

Lemma grad_entries (est : Nystrom F) (t : nat) :
  (forall k, (k < get_num_rkhs_basis est)%N ->
     (get_num_dimensions est <=
      size (dx_i_dx_j_component (m_kernel est)
              (basis_sample est k) t (basis_coord est k)))%N) ->
  exists g,
    [/\ grad est t = Returns g, size g = get_num_dimensions est &
        forall j, (j < get_num_dimensions est)%N ->
          g`_j =
          (- \sum_(0 <= k < get_num_rkhs_basis est)
               (dx_i_dx_i_dx_j_component (m_kernel est)
                  (basis_sample est k) t (basis_coord est k))`_j)
            * ((m_alpha_beta est)`_0 / (get_num_lhs est)%:R)
          + \sum_(0 <= k < get_num_rkhs_basis est)
              (dx_i_dx_j_component (m_kernel est)
                 (basis_sample est k) t (basis_coord est k))`_j
              * (m_alpha_beta est)`_(1 + k)].
Proof.
move=> long; rewrite /grad.
set D := get_num_dimensions est; set m := get_num_rkhs_basis est.
have sub_loop : forall n (X : nat -> seq F) (v : seq F),
    let w := for_loop n (fun k v => eigen_subv v (X k)) v in
    size w = size v /\
    forall j, (j < size v)%N -> w`_j = v`_j - \sum_(0 <= k < n) (X k)`_j.
  move=> n X v; elim: n => [|n [sz_w nth_w]] /=.
    by rewrite for_loop0; split=> // j _; rewrite big_geq // subr0.
  rewrite for_loopS size_mkseq; split=> // j lt_j.
  by rewrite nth_mkseq ?sz_w // nth_w // big_nat_recr //= opprD addrA.
have add_loop : forall n (X : nat -> seq F) (v : seq F),
    let w := for_loop n (fun k v => eigen_addv v (X k)) v in
    size w = size v /\
    forall j, (j < size v)%N -> w`_j = v`_j + \sum_(0 <= k < n) (X k)`_j.
  move=> n X v; elim: n => [|n [sz_w nth_w]] /=.
    by rewrite for_loop0; split=> // j _; rewrite big_geq // addr0.
  rewrite for_loopS size_mkseq; split=> // j lt_j.
  by rewrite nth_mkseq ?sz_w // nth_w // big_nat_recr //= addrA.
pose X k := dx_i_dx_i_dx_j_component (m_kernel est)
  (basis_sample est k) t (basis_coord est k).
pose Y k := eigen_mulv_scalar
  (dx_i_dx_j_component (m_kernel est) (basis_sample est k) t (basis_coord est k))
  (m_alpha_beta est)`_(1 + k).
rewrite (for_loop_pair m (fun k v => eigen_subv v (X k))
                         (fun k v => eigen_addv v (Y k))).
have /= [sz_x nth_x] := sub_loop m X (nseq D 0).
have /= [sz_y nth_y] := add_loop m Y (nseq D 0).
rewrite size_nseq in sz_x sz_y nth_x nth_y.
eexists; split; first by [].
  by rewrite size_mkseq size_map.
move=> j lt_j; rewrite nth_mkseq ?size_map ?sz_x // (nth_map 0) ?sz_x //.
rewrite nth_x // nth_y // nth_nseq lt_j sub0r add0r; congr (_ + _).
apply: eq_big_nat => k /andP [_ lt_k].
by rewrite /Y /eigen_mulv_scalar (nth_map 0) // (leq_trans lt_j) // long.
Qed.

(** C8, as the code has it: no evaluator compares the query index with N
    or raises OutOfRange.  For a fitted estimator and t outside [0, N)
    each evaluator hands t to the oracle unchanged and, with an oracle
    that answers there, returns the same expression in the oracle's
    answers at t as it does inside the range. *)
Theorem evaluators_do_not_check_range (est : Nystrom F) (t : nat) :
  fitted est -> (0 < get_num_lhs est)%N ->
  (forall k, (k < get_num_rkhs_basis est)%N ->
     (get_num_dimensions est <=
      size (dx_i_dx_i_dx_j_component (m_kernel est)
              (basis_sample est k) t (basis_coord est k)))%N /\
     (get_num_dimensions est <=
      size (dx_i_dx_j_component (m_kernel est)
              (basis_sample est k) t (basis_coord est k)))%N) ->
  (get_num_lhs est <= t)%N ->
  let N := get_num_lhs est in
  let D := get_num_dimensions est in
  let m := get_num_rkhs_basis est in
  let theta := m_alpha_beta est in
  let a := basis_sample est in
  let i := basis_coord est in
  let beta_a a := segment (beta_full_fake est) (a * D) D in
  [/\ log_pdf est t =
      Returns (theta`_0 * (\sum_(0 <= k < m) dx_dx_component (m_kernel est) (a k) t (i k))
                 / N%:R
               - \sum_(0 <= k < m)
                   dx_component (m_kernel est) (a k) t (i k) * theta`_(1 + k)),
      exists g,
        [/\ grad est t = Returns g, size g = D &
            forall j, (j < D)%N ->
              g`_j =
              (- \sum_(0 <= k < m)
                   (dx_i_dx_i_dx_j_component (m_kernel est) (a k) t (i k))`_j)
                * (theta`_0 / N%:R)
              + \sum_(0 <= k < m)
                  (dx_i_dx_j_component (m_kernel est) (a k) t (i k))`_j
                  * theta`_(1 + k)],
      exists2 H, hessian est t = Returns H &
        forall p q, entry H p q =
          (\sum_(0 <= b < N)
             entry (dx_i_dx_j_dx_k_dx_k_row_sum (m_kernel est) b t) p q)
            * (theta`_0 / N%:R)
          - \sum_(0 <= b < N)
              entry (dx_i_dx_j_dx_k_dot_vec (m_kernel est) b t (beta_a b)) p q &
      exists2 d, hessian_diag est t = Returns d &
        size d = D /\
        forall p, (p < D)%N -> d`_p =
          (\sum_(0 <= b < N)
             dx_i_dx_j_dx_k_dx_k_row_sum_component (m_kernel est) b t p p)
            * (theta`_0 / N%:R)
          - \sum_(0 <= b < N)
              dx_i_dx_j_dx_k_dot_vec_component (m_kernel est) b t
                (beta_a b) p p].
Proof.
move=> _ _ long _ N D m theta a i beta_a; split.
- exact: log_pdfE.
- by apply: grad_entries => k lt_k; case: (long k lt_k).
- exact: hessianE.
- exact: hessian_diagE.
Qed.

(** ** C3 *)

(** C3, as the code has it: the constructor from a user-supplied index
    sequence stores the sequence as it is given, in the given order; it
    checks nothing and raises nothing. *)
Theorem Nystrom_of_basis_stores (b : Base F) (J : seq nat) :
  exists est,
    [/\ Nystrom_of_basis b J = Returns est, base est = b,
        m_rkhs_basis_inds est = J & get_num_rkhs_basis est = size J].
Proof. by exists (mkNystrom b J). Qed.

(** ** C9 *)

Section Sampling.

Variable CMath_permute : seq nat -> seq nat.
Variable CMath_qsort : seq nat -> seq nat.

(** [CMath::permute] rearranges its argument, [CMath::qsort] sorts it. *)
Hypothesis permute_perm : forall s, perm_eq (CMath_permute s) s.
Hypothesis qsort_perm : forall s, perm_eq (CMath_qsort s) s.
Hypothesis qsort_sorted : forall s, sorted leq (CMath_qsort s).

Lemma for_loop_copy (m : nat) (p : seq nat) :
  (m <= size p)%N ->
  for_loop m (fun i v => set_nth 0%N v i (nth 0%N p i)) (nseq m 0%N) = take m p.
Proof.
move=> le_m.
have /= [sz_w nth_w] := @for_loop_slots _ 0%N m (fun i _ => nth 0%N p i)
  (nseq m 0%N) (eq_leq (esym (size_nseq _ _))).
apply: (@eq_from_nth _ 0%N); first by rewrite sz_w size_nseq size_takel.
move=> k; rewrite sz_w size_nseq => lt_k.
by rewrite nth_w lt_k nth_take.
Qed.

Lemma sub_sample_rkhs_basisE (est : Nystrom F) (m : nat) :
  (m <= get_num_lhs est * get_num_dimensions est)%N ->
  sub_sample_rkhs_basis CMath_permute CMath_qsort est m =
  CMath_qsort
    (take m (CMath_permute
               (iota 0 (get_num_lhs est * get_num_dimensions est)))).
Proof.
move=> le_m; rewrite /sub_sample_rkhs_basis /range_fill size_nseq.
by rewrite for_loop_copy // (perm_size (permute_perm _)) size_iota.
Qed.

(** C9: the constructor with a target size m <= N*D stores the first m
    entries of a permutation of {0, ..., N*D-1}, sorted: m distinct
    indices below N*D in strictly increasing order. *)
Theorem Nystrom_of_size_basis (b : Base F) (m : nat) :
  (m <= get_num_lhs b * get_num_dimensions b)%N ->
  let ND := (get_num_lhs b * get_num_dimensions b)%N in
  exists est,
    Nystrom_of_size CMath_permute CMath_qsort b m = Returns est /\
    base est = b /\
    let J := m_rkhs_basis_inds est in
    [/\ size J = m, uniq J, all (fun k => k < ND)%N J, sorted ltn J &
        perm_eq J (take m (CMath_permute (iota 0 ND)))].
Proof.
move=> le_m ND; eexists; split; first by [].
split=> //=; rewrite sub_sample_rkhs_basisE //= -/ND.
set p := CMath_permute (iota 0 ND).
have sz_p : size p = ND by rewrite (perm_size (permute_perm _)) size_iota.
have uniq_p : uniq p by rewrite (perm_uniq (permute_perm _)) iota_uniq.
have uniq_J : uniq (CMath_qsort (take m p)).
  by rewrite (perm_uniq (qsort_perm _)) take_uniq.
split=> //.
- by rewrite (perm_size (qsort_perm _)) size_takel ?sz_p.
- rewrite (perm_all _ (qsort_perm _)); apply/allP => k /mem_take.
  by rewrite (perm_mem (permute_perm _)) mem_iota add0n.
- by rewrite ltn_sorted_uniq_leq uniq_J qsort_sorted.
Qed.

End Sampling.

(** ** The solver *)

Lemma sum_delta_l (m r : nat) (x : nat -> F) :
  (r < m)%N -> \sum_(0 <= k < m) (r == k)%:R * x k = x r.
Proof.
move=> lt_r; rewrite (bigD1_seq r) ?mem_index_iota ?iota_uniq //= eqxx mul1r.
rewrite big1 ?addr0 // => k /negbTE ne_k.
by rewrite eq_sym ne_k mul0r.
Qed.

Lemma sum_delta_r (m c : nat) (x : nat -> F) :
  (c < m)%N -> \sum_(0 <= k < m) x k * (k == c)%:R = x c.
Proof.
move=> lt_c; rewrite -[RHS](sum_delta_l x lt_c).
by apply: eq_bigr => k _; rewrite mulrC eq_sym.
Qed.

Lemma foldl_maxP (x : F) (s : seq F) :
  foldl Num.max x s \in x :: s /\
  forall y, y \in x :: s -> y <= foldl Num.max x s.
Proof.
elim: s x => [|a s IH] x /=.
  by rewrite mem_head; split=> // y; rewrite inE => /eqP ->.
have [mem_M le_M] := IH (Num.max x a); split.
  move: mem_M; rewrite !inE => /orP [/eqP ->|->]; last by rewrite !orbT.
  by case: leP => _; rewrite eqxx ?orbT.
move=> y; rewrite !inE => /or3P [/eqP ->|/eqP ->|mem_y].
- by apply: le_trans (le_M _ (mem_head _ _)); rewrite le_max lexx.
- by apply: le_trans (le_M _ (mem_head _ _)); rewrite le_max lexx orbT.
- by apply: le_M; rewrite inE mem_y orbT.
Qed.

Lemma maxCoeff_is_max (s : seq F) : (0 < size s)%N -> is_max (maxCoeff s) s.
Proof. by case: s => [//|x s] _; apply: foldl_maxP. Qed.

Lemma is_max_unique (M M' : F) (s s' : seq F) :
  s =i s' -> is_max M s -> is_max M' s' -> M = M'.
Proof.
move=> eq_s [mem_M le_M] [mem_M' le_M']; apply/eqP; rewrite eq_le.
by rewrite le_M' -?eq_s // le_M ?eq_s.
Qed.

(** From A = V diag(s) V^T and V^T V = I: A V = V diag(s). *)
Lemma eigen_decomposition_AV (A : SGMatrix F) (s : seq F) (V : SGMatrix F) (r c : nat) :
  eigen_decomposition A s V ->
  (r < num_rows A)%N -> (c < num_rows A)%N ->
  \sum_(0 <= k < num_rows A) entry A r k * entry V k c = entry V r c * s`_c.
Proof.
move=> [_ _ VtV AE] lt_r lt_c; set m := num_rows A in lt_r lt_c VtV AE *.
transitivity (\sum_(0 <= j < m) (entry V r j * s`_j) * (j == c)%:R).
  transitivity (\sum_(0 <= k < m) \sum_(0 <= j < m)
                  (entry V r j * s`_j) * (entry V k j * entry V k c)).
    apply: eq_big_nat => k /andP [_ lt_k]; rewrite AE // mulr_suml.
    by apply: eq_bigr => j _; rewrite !mulrA.
  rewrite exchange_big /=; apply: eq_big_nat => j /andP [_ lt_j].
  by rewrite -mulr_sumr VtV.
by rewrite (sum_delta_r (fun j => entry V r j * s`_j)).
Qed.

(** A sum of squares equal to one has a non-zero term. *)
Lemma unit_norm_nonzero (m : nat) (v : nat -> F) :
  \sum_(0 <= j < m) v j * v j = 1 -> exists2 j, (j < m)%N & v j != 0.
Proof.
move=> norm1; case: (boolP (has (fun j => v j != 0) (iota 0 m))).
  by case/hasP=> j; rewrite mem_iota add0n => /andP [_ lt_j] nz; exists j.
rewrite -all_predC => /allP all0.
have sum0 : \sum_(0 <= j < m) v j * v j = 0.
  apply: big1_seq => j /andP [_]; rewrite /index_iota subn0 => mem_j.
  by have /= := all0 j mem_j; rewrite negbK => /eqP ->; rewrite mul0r.
by move/eqP: norm1; rewrite sum0 eq_sym oner_eq0.
Qed.

Section DiagonalInput.

Variable A : SGMatrix F.
Variable s : seq F.
Variable V : SGMatrix F.

Hypothesis decomposition : eigen_decomposition A s V.
Hypothesis diagonal : forall r c,
  (r < num_rows A)%N -> (c < num_rows A)%N -> r != c -> entry A r c = 0.

Let m := num_rows A.

Lemma diagonal_AV (r c : nat) :
  (r < m)%N -> (c < m)%N -> entry A r r * entry V r c = entry V r c * s`_c.
Proof.
move=> lt_r lt_c; rewrite -(eigen_decomposition_AV decomposition lt_r lt_c).
rewrite (bigD1_seq r) ?mem_index_iota ?iota_uniq //= big1_seq ?addr0 //.
move=> k /andP [ne_k]; rewrite mem_index_iota => /andP [_ lt_k].
by rewrite diagonal ?mul0r // eq_sym.
Qed.

Lemma diagonal_eigenvalue (r c : nat) :
  (r < m)%N -> (c < m)%N -> entry V r c != 0 -> s`_c = entry A r r.
Proof.
move=> lt_r lt_c nz; apply: (mulfI nz).
by rewrite -diagonal_AV // mulrC.
Qed.

(** The eigenvalues are the diagonal entries. *)
Lemma diagonal_spectrum : s =i [seq entry A i i | i <- iota 0 m].
Proof.
have [sz_s VVt VtV _] := decomposition.
move=> x; apply/idP/idP.
  move=> /(nthP 0) [c]; rewrite sz_s => lt_c <-.
  have col1 : \sum_(0 <= j < m) entry V j c * entry V j c = 1.
    by rewrite VtV // eqxx.
  have [r lt_r nz] := unit_norm_nonzero col1.
  rewrite (diagonal_eigenvalue lt_r lt_c nz).
  by apply/mapP; exists r; rewrite // mem_iota.
move=> /mapP [r]; rewrite mem_iota add0n => /andP [_ lt_r] ->.
have row1 : \sum_(0 <= j < m) entry V r j * entry V r j = 1.
  by rewrite VVt // eqxx.
have [c lt_c nz] := unit_norm_nonzero row1.
by rewrite -(diagonal_eigenvalue lt_r lt_c nz) mem_nth ?sz_s.
Qed.

(** A function of the eigenvalues, applied through V, is the function of
    the diagonal entries. *)
Lemma diagonal_spectral_map (g : F -> F) (r c : nat) :
  (r < m)%N -> (c < m)%N ->
  \sum_(0 <= j < m) entry V r j * g s`_j * entry V c j =
  if r == c then g (entry A r r) else 0.
Proof.
move=> lt_r lt_c; have [_ VVt _ _] := decomposition.
transitivity (g (entry A r r) * \sum_(0 <= j < m) entry V r j * entry V c j).
  rewrite mulr_sumr; apply: eq_big_nat => j /andP [_ lt_j].
  have [/eqP -> | nz] := boolP (entry V r j == 0); first by rewrite !mul0r mulr0.
  by rewrite (diagonal_eigenvalue lt_r lt_j nz) mulrA [g _ * _]mulrC.
by rewrite VVt //; case: eqP => _; rewrite ?mulr1 ?mulr0.
Qed.

End DiagonalInput.

(** The quadratic form of V diag(w) V^T is a weighted sum of squares. *)
Lemma spectral_quadratic_form (m : nat) (V : SGMatrix F) (w : seq F)
    (P : nat -> nat -> F) (x : nat -> F) :
  (forall r c, (r < m)%N -> (c < m)%N ->
     P r c = \sum_(0 <= j < m) entry V r j * w`_j * entry V c j) ->
  \sum_(0 <= r < m) \sum_(0 <= c < m) x r * P r c * x c =
  \sum_(0 <= j < m) w`_j * (\sum_(0 <= r < m) x r * entry V r j) ^+ 2.
Proof.
move=> PE.
transitivity (\sum_(0 <= r < m) \sum_(0 <= j < m) \sum_(0 <= c < m)
                w`_j * ((x r * entry V r j) * (x c * entry V c j))).
  apply: eq_big_nat => r /andP [_ lt_r]; rewrite exchange_big /=.
  apply: eq_big_nat => c /andP [_ lt_c]; rewrite PE // mulr_sumr mulr_suml.
  by apply: eq_bigr => j _; ring.
rewrite exchange_big /=; apply: eq_bigr => j _.
rewrite expr2 big_distrlr /= mulr_sumr; apply: eq_bigr => r _.
by rewrite mulr_sumr.
Qed.

(** The diagonal solver meets the solver's contract on diagonal input. *)
Lemma diag_solver_decomposition (A : SGMatrix F) :
  (forall r c, (r < num_rows A)%N -> (c < num_rows A)%N -> r != c ->
     entry A r c = 0) ->
  eigen_decomposition A (diag_solver A).1 (diag_solver A).2.
Proof.
move=> diagonal; split=> /=; first by rewrite size_mkseq.
- move=> i k lt_i lt_k.
  by rewrite (sum_delta_l (fun j => (k == j)%:R)) // eq_sym.
- move=> i k lt_i lt_k.
  by rewrite (sum_delta_r (fun j => (j == i)%:R)) // eq_sym.
move=> r c lt_r lt_c.
transitivity (\sum_(0 <= j < num_rows A)
                (r == j)%:R * ((mkseq (fun i => entry A i i) (num_rows A))`_j
                               * (c == j)%:R)); last first.
  by apply: eq_bigr => j _; rewrite mulrA.
rewrite sum_delta_l // nth_mkseq //.
have [<-|ne_rc] := eqVneq r c; first by rewrite mulr1.
by rewrite diagonal // mulr0.
Qed.

Section SolverProperties.

Variable MACHINE_EPSILON : F.
Variable SelfAdjointEigenSolver : SGMatrix F -> seq F * SGMatrix F.

Lemma inv_eigenvaluesP (m : nat) (s : seq F) (tol : F) :
  size (inv_eigenvalues m s tol) = m /\
  forall i, (i < m)%N ->
    (inv_eigenvalues m s tol)`_i = if s`_i > tol then 1 / s`_i else 0.
Proof.
rewrite /inv_eigenvalues.
rewrite (@eq_for_loop _ m _
  (fun i v => set_nth 0 v i ((fun i _ => if s`_i > tol then 1 / s`_i else 0) i v`_i))).
  by move=> i v _; case: ifP.
have /= [sz nth_w] := @for_loop_slots _ 0 m
  (fun i _ => if s`_i > tol then 1 / s`_i else 0) (nseq m 0)
  (eq_leq (esym (size_nseq _ _))).
by split=> [|i lt_i]; rewrite ?sz ?size_nseq // nth_w lt_i.
Qed.

Lemma pinv_self_adjointE (A : SGMatrix F) :
  num_cols A = num_rows A ->
  let m := num_rows A in
  let s := (SelfAdjointEigenSolver A).1 in
  let V := (SelfAdjointEigenSolver A).2 in
  let inv_s := inv_eigenvalues m s (MACHINE_EPSILON * m%:R * maxCoeff s) in
  exists P,
    [/\ pinv_self_adjoint MACHINE_EPSILON SelfAdjointEigenSolver A = Returns P,
        num_rows P = m, num_cols P = m &
        forall r c, (r < m)%N -> (c < m)%N ->
          entry P r c = \sum_(0 <= j < m) entry V r j * inv_s`_j * entry V c j].
Proof.
move=> square /=; rewrite /pinv_self_adjoint square eqxx /=.
case: (SelfAdjointEigenSolver A) => s V /=.
eexists; split=> // r c lt_r lt_c /=.
by rewrite !add0n lt_r lt_c !subn0 (inv_eigenvaluesP _ _ _).1.
Qed.

Lemma nonpositive_below_tol (m : nat) (s : seq F) (i : nat) :
  size s = m -> 0 <= MACHINE_EPSILON -> m%:R * MACHINE_EPSILON < 1 ->
  (i < m)%N -> s`_i <= 0 ->
  (MACHINE_EPSILON * m%:R * maxCoeff s < s`_i) = false.
Proof.
move=> sz_s eps_ge0 small lt_i le0.
have [_ le_M] : is_max (maxCoeff s) s.
  by apply: maxCoeff_is_max; rewrite sz_s; apply: leq_ltn_trans lt_i.
have := le_M s`_i (mem_nth 0 _); rewrite sz_s => /(_ lt_i).
have := ler0n F m; move: (m%:R) (maxCoeff s) s`_i le0 small => n M x.
move=> x_le0 small n_ge0 x_leM; apply/negbTE; rewrite -leNgt.
have [M_ge0|/ltW M_le0] := leP 0 M.
  by apply: le_trans x_le0 _; rewrite !mulr_ge0.
apply: le_trans x_leM _; rewrite -subr_ge0.
have -> : MACHINE_EPSILON * n * M - M = (1 - n * MACHINE_EPSILON) * (- M).
  by ring.
by rewrite mulr_ge0 ?oppr_ge0 // subr_ge0 ltW.
Qed.

(** C2: on a square matrix of side m > 0 whose solver output s, V is an
    eigendecomposition A = V diag(s) V^T, [pinv_self_adjoint] returns
    V diag(s+) V^T, where s+_j = 1/s_j when s_j > tau (strictly) and 0
    otherwise, and tau = eps * m * max_j s_j.  On a diagonal matrix the
    result is diagonal: every diagonal entry above tau is inverted, every
    other one is zeroed, with tau = eps * m * (largest diagonal entry). *)
Theorem pinv_self_adjoint_spec (A : SGMatrix F) :
  num_cols A = num_rows A -> (0 < num_rows A)%N ->
  let m := num_rows A in
  let s := (SelfAdjointEigenSolver A).1 in
  let V := (SelfAdjointEigenSolver A).2 in
  eigen_decomposition A s V ->
  exists P tau,
    [/\ pinv_self_adjoint MACHINE_EPSILON SelfAdjointEigenSolver A = Returns P,
        exists2 M, is_max M s & tau = MACHINE_EPSILON * m%:R * M,
        num_rows P = m /\ num_cols P = m,
        forall r c, (r < m)%N -> (c < m)%N ->
          entry P r c =
          \sum_(0 <= j < m)
            entry V r j * (if s`_j > tau then 1 / s`_j else 0) * entry V c j &
        (forall r c, (r < m)%N -> (c < m)%N -> r != c -> entry A r c = 0) ->
        (exists2 M, is_max M [seq entry A i i | i <- iota 0 m] &
                    tau = MACHINE_EPSILON * m%:R * M) /\
        forall r c, (r < m)%N -> (c < m)%N ->
          entry P r c =
          if r == c
          then (if entry A r r > tau then 1 / entry A r r else 0)
          else 0].
Proof.
move=> square m_gt0 m s V decomposition.
have [sz_s _ _ _] := decomposition.
have [P [retP rows_P cols_P entP]] := pinv_self_adjointE square.
have maxP : is_max (maxCoeff s) s by apply: maxCoeff_is_max; rewrite sz_s.
pose tau := MACHINE_EPSILON * m%:R * maxCoeff s.
have entP' r c : (r < m)%N -> (c < m)%N ->
    entry P r c =
    \sum_(0 <= j < m)
      entry V r j * (if s`_j > tau then 1 / s`_j else 0) * entry V c j.
  move=> lt_r lt_c; rewrite entP //; apply: eq_big_nat => j /andP [_ lt_j].
  by rewrite (inv_eigenvaluesP _ _ _).2.
exists P, tau; split=> //; first by exists (maxCoeff s).
move=> diagonal; split.
  exists (maxCoeff s) => //; have eq_s := diagonal_spectrum decomposition diagonal.
  case: maxP => mem_M le_M; split; first by rewrite -eq_s.
  by move=> x; rewrite -eq_s; apply: le_M.
move=> r c lt_r lt_c; rewrite entP' //.
exact: (diagonal_spectral_map decomposition diagonal
          (fun x => if x > tau then 1 / x else 0)).
Qed.

(** C10: when m * eps < 1 (and eps >= 0), no eigenvalue s_i <= 0 passes
    the test s_i > eps * m * max_j s_j: all of them are mapped to zero, no
    inverted eigenvalue is negative, and the matrix returned is positive
    semi-definite. *)
Theorem pinv_self_adjoint_truncates_nonpositive (A : SGMatrix F) :
  num_cols A = num_rows A ->
  let m := num_rows A in
  let s := (SelfAdjointEigenSolver A).1 in
  let V := (SelfAdjointEigenSolver A).2 in
  size s = m -> 0 <= MACHINE_EPSILON -> m%:R * MACHINE_EPSILON < 1 ->
  exists P inv_s,
    [/\ pinv_self_adjoint MACHINE_EPSILON SelfAdjointEigenSolver A = Returns P,
        forall r c, (r < m)%N -> (c < m)%N ->
          entry P r c = \sum_(0 <= j < m) entry V r j * inv_s`_j * entry V c j,
        forall i, (i < m)%N ->
          inv_s`_i =
          if s`_i > MACHINE_EPSILON * m%:R * maxCoeff s then 1 / s`_i else 0,
        forall i, (i < m)%N -> s`_i <= 0 -> inv_s`_i = 0 &
        forall x : nat -> F,
          0 <= \sum_(0 <= r < m) \sum_(0 <= c < m) x r * entry P r c * x c].
Proof.
move=> square m s V sz_s eps_ge0 small.
have [P [retP _ _ entP]] := pinv_self_adjointE square.
set inv_s := inv_eigenvalues _ _ _ in entP.
have [_ nth_inv] := inv_eigenvaluesP m s (MACHINE_EPSILON * m%:R * maxCoeff s).
have inv0 i : (i < m)%N -> s`_i <= 0 -> inv_s`_i = 0.
  by move=> lt_i le0; rewrite nth_inv // nonpositive_below_tol.
have inv_ge0 i : (i < m)%N -> 0 <= inv_s`_i.
  move=> lt_i; have [le0|gt0] := leP s`_i 0; first by rewrite inv0.
  by rewrite nth_inv //; case: ifP => // _; rewrite divr_ge0 // ltW.
exists P, inv_s; split=> // x.
rewrite (spectral_quadratic_form x entP) big_nat.
by apply: sumr_ge0 => j /andP [_ lt_j]; rewrite mulr_ge0 ?inv_ge0 ?sqr_ge0.
Qed.

End SolverProperties.

(** ** C4 *)


(** * Further properties of the code *)

(** ** The index codec *)

(** X1: for D > 0, [idx_to_ai] splits a flat index idx into (a, i) with
    a * D + i = idx and i < D; idx is below N * D exactly when a is below
    N; and the codec of a * D + i with i < D is (a, i) again. *)
Theorem idx_to_ai_bijection (D : nat) :
  (0 < D)%N ->
  (forall idx,
     let ai := idx_to_ai idx D in
     [/\ (ai.1 * D + ai.2)%N = idx, (ai.2 < D)%N &
         forall N, (ai.1 < N)%N = (idx < N * D)%N]) /\
  (forall a i, (i < D)%N -> idx_to_ai (a * D + i) D = (a, i)).
Proof.
move=> D_gt0; split=> [idx /=|a i lt_i].
  by split=> [||N]; rewrite -?divn_eq ?ltn_pmod ?ltn_divLR.
by rewrite /idx_to_ai divnMDl // modnMDl divn_small // modn_small // addn0.
Qed.

(** ** grad *)

Lemma for_loop_eigen_subv (n : nat) (X : nat -> seq F) (v : seq F) :
  let w := for_loop n (fun k v => eigen_subv v (X k)) v in
  size w = size v /\
  forall j, (j < size v)%N -> w`_j = v`_j - \sum_(0 <= k < n) (X k)`_j.
Proof.
elim: n => [|n [sz_w nth_w]] /=.
  by rewrite for_loop0; split=> // j _; rewrite big_geq // subr0.
rewrite for_loopS size_mkseq; split=> // j lt_j.
by rewrite nth_mkseq ?sz_w // nth_w // big_nat_recr //= opprD addrA.
Qed.

Lemma for_loop_eigen_addv (n : nat) (X : nat -> seq F) (v : seq F) :
  let w := for_loop n (fun k v => eigen_addv v (X k)) v in
  size w = size v /\
  forall j, (j < size v)%N -> w`_j = v`_j + \sum_(0 <= k < n) (X k)`_j.
Proof.
elim: n => [|n [sz_w nth_w]] /=.
  by rewrite for_loop0; split=> // j _; rewrite big_geq // addr0.
rewrite for_loopS size_mkseq; split=> // j lt_j.
by rewrite nth_mkseq ?sz_w // nth_w // big_nat_recr //= addrA.
Qed.

(** X2: [grad] returns a vector of length D whose j-th entry is
    (theta[0] / N) times minus the sum over the basis of the j-th entries
    of the oracle's vectors k_iij(a_k, t, i_k), plus the sum over the basis
    of the j-th entries of k_ij(a_k, t, i_k) times theta[1+k], when the
    oracle's vectors have the D entries that the code reads. *)
Theorem grad_formula (est : Nystrom F) (t : nat) :
  let N := get_num_lhs est in
  let D := get_num_dimensions est in
  let m := get_num_rkhs_basis est in
  let theta := m_alpha_beta est in
  let a := basis_sample est in
  let i := basis_coord est in
  (forall k, (k < m)%N ->
     (D <= size (dx_i_dx_i_dx_j_component (m_kernel est) (a k) t (i k)))%N /\
     (D <= size (dx_i_dx_j_component (m_kernel est) (a k) t (i k)))%N) ->
  exists g,
    [/\ grad est t = Returns g, size g = D &
        forall j, (j < D)%N ->
          g`_j =
          (- \sum_(0 <= k < m)
               (dx_i_dx_i_dx_j_component (m_kernel est) (a k) t (i k))`_j)
            * (theta`_0 / N%:R)
          + \sum_(0 <= k < m)
              (dx_i_dx_j_component (m_kernel est) (a k) t (i k))`_j
              * theta`_(1 + k)].
Proof.
move=> N D m theta a i long; rewrite /grad -/N -/D -/m -/theta.
pose X k := dx_i_dx_i_dx_j_component (m_kernel est) (a k) t (i k).
pose Y k := eigen_mulv_scalar
  (dx_i_dx_j_component (m_kernel est) (a k) t (i k)) theta`_(1 + k).
rewrite (for_loop_pair m (fun k v => eigen_subv v (X k))
                         (fun k v => eigen_addv v (Y k))).
have /= [sz_x nth_x] := for_loop_eigen_subv m X (nseq D 0).
have /= [sz_y nth_y] := for_loop_eigen_addv m Y (nseq D 0).
rewrite size_nseq in sz_x sz_y nth_x nth_y.
eexists; split; first by [].
  by rewrite size_mkseq size_map.
move=> j lt_j; rewrite nth_mkseq ?size_map ?sz_x // (nth_map 0) ?sz_x //.
rewrite nth_x // nth_y // nth_nseq lt_j sub0r add0r; congr (_ + _).
apply: eq_big_nat => k /andP [_ lt_k].
by rewrite /Y /eigen_mulv_scalar (nth_map 0) // (leq_trans lt_j) // (long k _).2.
Qed.

(** ** The lifted coefficient vector, hessian and hessian_diag *)

Lemma beta_full_fake_prefix (est : Nystrom F) (n : nat) :
  basis_in_range est -> uniq (m_rkhs_basis_inds est) ->
  (n <= get_num_rkhs_basis est)%N ->
  let J := m_rkhs_basis_inds est in
  let v := for_loop n (fun idx v => set_nth 0 v (nth 0%N J idx)
                                      (m_alpha_beta est)`_(1 + idx))
             (nseq (get_num_lhs est * get_num_dimensions est) 0) in
  size v = (get_num_lhs est * get_num_dimensions est)%N /\
  forall p, v`_p = if p \in take n J
                   then (m_alpha_beta est)`_(1 + index p J) else 0.
Proof.
move=> /all_nthP in_range uniq_J le_n J.
elim: n le_n => [|n IH] lt_n /=.
  by rewrite for_loop0 size_nseq take0; split=> // p; rewrite nth_nseq if_same.
have [sz_v nth_v] := IH (ltnW lt_n).
rewrite for_loopS size_set_nth sz_v; split.
  by apply/maxn_idPr; apply: in_range.
move=> p; rewrite nth_set_nth /= (take_nth 0%N) // mem_rcons inE.
have [->|_] := eqVneq p (nth 0%N J n); first by rewrite index_uniq.
by rewrite nth_v.
Qed.

Lemma beta_full_fakeE (est : Nystrom F) :
  basis_in_range est -> uniq (m_rkhs_basis_inds est) ->
  beta_full_fake est =
  mkseq (lifted_beta est) (get_num_lhs est * get_num_dimensions est).
Proof.
move=> in_range uniq_J; rewrite /beta_full_fake.
rewrite (@eq_for_loop _ _ _
  (fun idx v => set_nth 0 v (nth 0%N (m_rkhs_basis_inds est) idx)
                  (m_alpha_beta est)`_(1 + idx))).
  by move=> idx v _; rewrite /idx_to_ai_of /idx_to_ai /= -divn_eq.
have /= [sz_v nth_v] := beta_full_fake_prefix in_range uniq_J (leqnn _).
apply: (@eq_from_nth _ 0); first by rewrite sz_v size_mkseq.
move=> p; rewrite sz_v => lt_p.
by rewrite nth_v nth_mkseq // /get_num_rkhs_basis take_size.
Qed.

Lemma segment_mkseq (f : nat -> F) (N D a : nat) :
  (a < N)%N ->
  segment (mkseq f (N * D)) (a * D) D = mkseq (fun i => f (a * D + i)%N) D.
Proof.
move=> lt_a; have le_aD : (a * D + D <= N * D)%N.
  by rewrite addnC -mulSn leq_mul2r lt_a orbT.
have sz_take : size (take D (drop (a * D) (mkseq f (N * D)))) = D.
  apply: size_takel; rewrite size_drop size_mkseq.
  by rewrite -(leq_add2l (a * D)) subnKC // (leq_trans _ le_aD) // leq_addr.
rewrite /segment; apply: (@eq_from_nth _ 0); first by rewrite sz_take size_mkseq.
move=> i; rewrite sz_take => lt_i; rewrite nth_take // nth_drop !nth_mkseq //.
by apply: leq_trans le_aD; rewrite ltn_add2l.
Qed.

Lemma for_loop_eigen_add_shape (n : nat) (M : nat -> SGMatrix F) (X : SGMatrix F) :
  let Y := for_loop n (fun a X => eigen_add X (M a)) X in
  num_rows Y = num_rows X /\ num_cols Y = num_cols X.
Proof. by elim: n => [//|n IH]; rewrite for_loopS /=. Qed.

(** X3: for a duplicate-free basis inside [0, N*D), the lifted vector that
    [hessian] and [hessian_diag] build has length N*D, carries theta[1+k]
    at position J[k] for every basis entry k, and is zero at every
    position that is not a basis index. *)
Theorem beta_full_fake_lifts (est : Nystrom F) :
  basis_in_range est -> uniq (m_rkhs_basis_inds est) ->
  let J := m_rkhs_basis_inds est in
  [/\ size (beta_full_fake est) = (get_num_lhs est * get_num_dimensions est)%N,
      forall k, (k < size J)%N ->
        (beta_full_fake est)`_(nth 0%N J k) = (m_alpha_beta est)`_(1 + k) &
      forall p, p \notin J -> (beta_full_fake est)`_p = 0].
Proof.
move=> in_range uniq_J J; rewrite beta_full_fakeE // size_mkseq; split=> //.
  move=> k lt_k; have /all_nthP lt_J := in_range.
  by rewrite nth_mkseq ?lt_J // /lifted_beta mem_nth // index_uniq.
move=> p /negbTE notin_p.
have [lt_p|le_p] := ltnP p (get_num_lhs est * get_num_dimensions est).
  by rewrite nth_mkseq // /lifted_beta notin_p.
by rewrite nth_default // size_mkseq.
Qed.

(** X4: with the full basis J = 0, 1, ..., N*D-1 and fitted coefficients,
    the lifted vector is the coefficient vector without its first entry. *)
Theorem beta_full_fake_full_basis (est : Nystrom F) :
  m_rkhs_basis_inds est = iota 0 (get_num_lhs est * get_num_dimensions est) ->
  fitted est ->
  beta_full_fake est = behead (m_alpha_beta est).
Proof.
move=> full /eqP fit; set ND := (_ * _)%N in full.
have sz_J : get_num_rkhs_basis est = ND.
  by rewrite /get_num_rkhs_basis full size_iota.
have in_range : basis_in_range est.
  by rewrite /basis_in_range full; apply/allP => k; rewrite mem_iota add0n.
have uniq_J : uniq (m_rkhs_basis_inds est) by rewrite full iota_uniq.
rewrite beta_full_fakeE // -/ND; apply: (@eq_from_nth _ 0).
  by rewrite size_mkseq size_behead fit sz_J.
move=> p; rewrite size_mkseq => lt_p.
rewrite nth_mkseq // nth_behead /lifted_beta full mem_iota add0n lt_p /=.
have {1}<- : nth 0%N (iota 0 ND) p = p by rewrite nth_iota.
by rewrite index_uniq ?size_iota ?iota_uniq.
Qed.

(** X5: for a duplicate-free basis inside [0, N*D), [hessian] returns a
    D x D matrix: (theta[0] / N) times the sum over the samples a of the
    oracle's row-sum matrices, minus the sum over the samples of the
    oracle's contractions with the a-th slice of length D of the lifted
    vector. *)
Theorem hessian_formula (est : Nystrom F) (t : nat) :
  basis_in_range est -> uniq (m_rkhs_basis_inds est) ->
  let N := get_num_lhs est in
  let D := get_num_dimensions est in
  let beta_a a := mkseq (fun i => lifted_beta est (a * D + i)) D in
  exists H,
    [/\ hessian est t = Returns H, num_rows H = D, num_cols H = D &
        forall i j, entry H i j =
          (\sum_(0 <= a < N)
             entry (dx_i_dx_j_dx_k_dx_k_row_sum (m_kernel est) a t) i j)
            * ((m_alpha_beta est)`_0 / N%:R)
          - \sum_(0 <= a < N)
              entry (dx_i_dx_j_dx_k_dot_vec (m_kernel est) a t (beta_a a)) i j].
Proof.
move=> in_range uniq_J N D beta_a; rewrite /hessian -/N -/D.
rewrite (for_loop_pair _
  (fun a X => eigen_add X (dx_i_dx_j_dx_k_dx_k_row_sum (m_kernel est) a t))
  (fun a X => eigen_sub X (dx_i_dx_j_dx_k_dot_vec (m_kernel est) a t
     (segment (beta_full_fake est) (a * D) D)))).
eexists; split; first by [].
- by rewrite /= (for_loop_eigen_add_shape _ _ _).1.
- by rewrite /= (for_loop_eigen_add_shape _ _ _).2.
move=> i j /=; rewrite for_loop_eigen_add for_loop_eigen_sub /= add0r sub0r.
congr (_ * _ - _); apply: eq_big_nat => a /andP [_ lt_a].
by rewrite beta_full_fakeE // segment_mkseq.
Qed.

(** X6: for a duplicate-free basis inside [0, N*D), [hessian_diag]
    returns a vector of length D whose i-th entry is (theta[0] / N) times
    the sum over the samples of the oracle's (i, i) row-sum components,
    minus the sum over the samples of the oracle's (i, i) contraction
    components with the a-th slice of the lifted vector. *)
Theorem hessian_diag_formula (est : Nystrom F) (t : nat) :
  basis_in_range est -> uniq (m_rkhs_basis_inds est) ->
  let N := get_num_lhs est in
  let D := get_num_dimensions est in
  let beta_a a := mkseq (fun i => lifted_beta est (a * D + i)) D in
  exists d,
    [/\ hessian_diag est t = Returns d, size d = D &
        forall i, (i < D)%N -> d`_i =
          (\sum_(0 <= a < N)
             dx_i_dx_j_dx_k_dx_k_row_sum_component (m_kernel est) a t i i)
            * ((m_alpha_beta est)`_0 / N%:R)
          - \sum_(0 <= a < N)
              dx_i_dx_j_dx_k_dot_vec_component (m_kernel est) a t
                (beta_a a) i i].
Proof.
move=> in_range uniq_J N D beta_a.
have [d eq_d [sz_d nth_d]] := hessian_diagE est t.
exists d; split=> // i lt_i; rewrite nth_d //.
congr (_ * _ - _); apply: eq_big_nat => a /andP [_ lt_a].
by rewrite beta_full_fakeE // segment_mkseq.
Qed.

(** ** The pseudo-inverse *)

(** Two matrices with the eigenvectors V multiply as their eigenvalues. *)
Lemma spectral_product (m : nat) (V : SGMatrix F) (u w : nat -> F) (r c : nat) :
  (forall i k, (i < m)%N -> (k < m)%N ->
     \sum_(0 <= j < m) entry V j i * entry V j k = (i == k)%:R) ->
  \sum_(0 <= k < m)
     (\sum_(0 <= i < m) entry V r i * u i * entry V k i)
     * (\sum_(0 <= j < m) entry V k j * w j * entry V c j) =
  \sum_(0 <= i < m) entry V r i * (u i * w i) * entry V c i.
Proof.
move=> VtV.
rewrite (eq_bigr (fun k => \sum_(0 <= i < m) \sum_(0 <= j < m)
  (entry V r i * u i * entry V k i) * (entry V k j * w j * entry V c j))).
  by move=> k _; rewrite big_distrlr.
rewrite exchange_big /=; apply: eq_big_nat => i /andP [_ lt_i].
rewrite exchange_big /=.
rewrite -[RHS](sum_delta_l (fun j => entry V r i * (u i * w j) * entry V c j) lt_i).
apply: eq_big_nat => j /andP [_ lt_j].
rewrite -(VtV i j lt_i lt_j) mulr_suml; apply: eq_bigr => k _.
by ring.
Qed.

Section SolverFurther.

Variable MACHINE_EPSILON : F.
Variable SelfAdjointEigenSolver : SGMatrix F -> seq F * SGMatrix F.

Let pinv := pinv_self_adjoint MACHINE_EPSILON SelfAdjointEigenSolver.

(** With eps >= 0 an eigenvalue above the tolerance is not zero. *)
Lemma above_tol_nonzero (m : nat) (s : seq F) (i : nat) :
  size s = m -> 0 <= MACHINE_EPSILON -> (i < m)%N ->
  MACHINE_EPSILON * m%:R * maxCoeff s < s`_i -> s`_i != 0.
Proof.
move=> sz_s eps_ge0 lt_i above; apply/eqP => s0.
have [_ le_M] : is_max (maxCoeff s) s.
  by apply: maxCoeff_is_max; rewrite sz_s; apply: leq_ltn_trans lt_i.
have M_ge0 : 0 <= maxCoeff s by rewrite -s0 le_M // mem_nth // sz_s.
by move: above; rewrite s0 ltNge !mulr_ge0.
Qed.

Lemma inv_eigenvalues_cases (m : nat) (s : seq F) (i : nat) :
  size s = m -> 0 <= MACHINE_EPSILON -> (i < m)%N ->
  let tau := MACHINE_EPSILON * m%:R * maxCoeff s in
  let inv_s := inv_eigenvalues m s tau in
  if tau < s`_i then s`_i != 0 /\ inv_s`_i * s`_i = 1 else inv_s`_i = 0.
Proof.
move=> sz_s eps_ge0 lt_i tau inv_s.
rewrite /inv_s (inv_eigenvaluesP _ _ _).2 //.
have [above|//] := boolP (tau < s`_i).
have nz := above_tol_nonzero sz_s eps_ge0 lt_i above.
by rewrite div1r mulVf.
Qed.

(** X8: with eps >= 0 the division 1 / s_i is carried out on non-zero
    eigenvalues only: every eigenvalue above the tolerance is non-zero and
    its entry of inv_s is its inverse, and every eigenvalue at or below the
    tolerance gets the entry 0. *)
Theorem inv_eigenvalues_inverts (m : nat) (s : seq F) (i : nat) :
  size s = m -> 0 <= MACHINE_EPSILON -> (i < m)%N ->
  let tau := MACHINE_EPSILON * m%:R * maxCoeff s in
  let inv_s := inv_eigenvalues m s tau in
  (tau < s`_i -> s`_i != 0 /\ inv_s`_i * s`_i = 1) /\
  (s`_i <= tau -> inv_s`_i = 0).
Proof.
move=> sz_s eps_ge0 lt_i tau inv_s.
have /= := inv_eigenvalues_cases sz_s eps_ge0 lt_i; rewrite -/tau -/inv_s.
by rewrite leNgt; case: (tau < s`_i) => cases; split.
Qed.

Section Decomposed.

Variable A : SGMatrix F.
Hypothesis square : num_cols A = num_rows A.
Hypothesis decomposition :
  eigen_decomposition A (SelfAdjointEigenSolver A).1 (SelfAdjointEigenSolver A).2.
Hypothesis eps_ge0 : 0 <= MACHINE_EPSILON.

Let m := num_rows A.
Let s := (SelfAdjointEigenSolver A).1.
Let V := (SelfAdjointEigenSolver A).2.
Let tau := MACHINE_EPSILON * m%:R * maxCoeff s.
Let inv_s := inv_eigenvalues m s tau.

(** The matrix with eigenvectors V and eigenvalues w. *)
Let spectral (w : nat -> F) (r c : nat) : F :=
  \sum_(0 <= j < m) entry V r j * w j * entry V c j.

Lemma pinv_spectral :
  exists P,
    [/\ pinv A = Returns P, num_rows P = m, num_cols P = m &
        forall r c, (r < m)%N -> (c < m)%N ->
          entry P r c = spectral (nth 0 inv_s) r c].
Proof. exact: (pinv_self_adjointE MACHINE_EPSILON SelfAdjointEigenSolver square). Qed.

Lemma input_spectral (r c : nat) :
  (r < m)%N -> (c < m)%N -> entry A r c = spectral (nth 0 s) r c.
Proof. by case: decomposition => _ _ _ AE; apply: AE. Qed.

Lemma spectral_mul (u w : nat -> F) (r c : nat) :
  \sum_(0 <= k < m) spectral u r k * spectral w k c =
  spectral (fun j => u j * w j) r c.
Proof. by case: decomposition => _ _ VtV _; apply: spectral_product. Qed.

Lemma eq_spectral (u w : nat -> F) (r c : nat) :
  (forall j, (j < m)%N -> u j = w j) -> spectral u r c = spectral w r c.
Proof.
by move=> eq_uw; apply: eq_big_nat => j /andP [_ lt_j]; rewrite eq_uw.
Qed.

Lemma inv_s_reflexive (j : nat) :
  (j < m)%N -> inv_s`_j * s`_j * inv_s`_j = inv_s`_j.
Proof.
move=> lt_j; have [sz_s _ _ _] := decomposition.
have /= := inv_eigenvalues_cases sz_s eps_ge0 lt_j.
rewrite -/m -/s -/tau -/inv_s.
case: ifP => _ => [[_ ->]|->]; first by rewrite mul1r.
by rewrite mulr0.
Qed.

Lemma pinv_products (P : SGMatrix F) :
  num_cols P = m ->
  (forall r c, (r < m)%N -> (c < m)%N ->
     entry P r c = spectral (nth 0 inv_s) r c) ->
  forall r c, (r < m)%N -> (c < m)%N ->
    entry (eigen_mul P A) r c = spectral (fun j => inv_s`_j * s`_j) r c /\
    entry (eigen_mul A P) r c = spectral (fun j => s`_j * inv_s`_j) r c.
Proof.
move=> cols_P entP r c lt_r lt_c; rewrite /= cols_P square -/m; split.
  rewrite -spectral_mul; apply: eq_big_nat => k /andP [_ lt_k].
  by rewrite entP // input_spectral.
rewrite -spectral_mul; apply: eq_big_nat => k /andP [_ lt_k].
by rewrite entP // input_spectral.
Qed.

(** X9: when the solver's output is an eigendecomposition of the square
    input A and eps >= 0, the matrix P returned by [pinv_self_adjoint]
    satisfies P A P = P exactly, commutes with A, and A P is symmetric:
    three of the four Moore-Penrose conditions hold whatever the tolerance
    cuts off. *)
Theorem pinv_self_adjoint_reflexive :
  exists P,
    [/\ pinv A = Returns P,
        forall r c, (r < m)%N -> (c < m)%N ->
          entry (eigen_mul (eigen_mul P A) P) r c = entry P r c,
        forall r c, (r < m)%N -> (c < m)%N ->
          entry (eigen_mul A P) r c = entry (eigen_mul P A) r c &
        forall r c, (r < m)%N -> (c < m)%N ->
          entry (eigen_mul A P) r c = entry (eigen_mul A P) c r].
Proof.
have [P [retP rows_P cols_P entP]] := pinv_spectral.
have prods := pinv_products cols_P entP.
exists P; split=> // r c lt_r lt_c.
- rewrite [LHS]/= square -/m entP //.
  rewrite -(eq_spectral r c inv_s_reflexive) -spectral_mul.
  apply: eq_big_nat => k /andP [_ lt_k].
  by rewrite -(prods r k lt_r lt_k).1 entP.
- rewrite (prods r c lt_r lt_c).1 (prods r c lt_r lt_c).2.
  by apply: eq_spectral => j _; rewrite mulrC.
- rewrite (prods r c lt_r lt_c).2 (prods c r lt_c lt_r).2.
  by apply: eq_bigr => j _; ring.
Qed.

(** X10: if moreover every eigenvalue that the tolerance cuts off is zero,
    the fourth condition A P A = A holds too and P is the Moore-Penrose
    pseudo-inverse of A. *)
Theorem pinv_self_adjoint_generalized_inverse :
  (forall j, (j < m)%N -> s`_j <= tau -> s`_j = 0) ->
  exists P,
    pinv A = Returns P /\
    forall r c, (r < m)%N -> (c < m)%N ->
      entry (eigen_mul (eigen_mul A P) A) r c = entry A r c.
Proof.
move=> cut0; have [P [retP rows_P cols_P entP]] := pinv_spectral.
have prods := pinv_products cols_P entP.
have [sz_s _ _ _] := decomposition.
exists P; split=> // r c lt_r lt_c.
rewrite [LHS]/= cols_P input_spectral //.
have <- : spectral (fun j => s`_j * inv_s`_j * s`_j) r c = spectral (nth 0 s) r c.
  apply: eq_spectral => j lt_j.
  have /= := inv_eigenvalues_cases sz_s eps_ge0 lt_j.
  rewrite -/m -/s -/tau -/inv_s.
  case: ifPn => [_ [_ inv1]|]; first by rewrite -mulrA inv1 mulr1.
  by rewrite -leNgt => /(cut0 j lt_j) -> _; rewrite !mul0r.
rewrite -spectral_mul; apply: eq_big_nat => k /andP [_ lt_k].
by rewrite -(prods r k lt_r lt_k).2 input_spectral.
Qed.

End Decomposed.

End SolverFurther.

(** ** The basis sampler *)

Section SamplingFurther.

Variable CMath_permute CMath_permute' : seq nat -> seq nat.
Variable CMath_qsort : seq nat -> seq nat.

Hypothesis permute_perm : forall s, perm_eq (CMath_permute s) s.
Hypothesis permute_perm' : forall s, perm_eq (CMath_permute' s) s.
Hypothesis qsort_perm : forall s, perm_eq (CMath_qsort s) s.
Hypothesis qsort_sorted : forall s, sorted leq (CMath_qsort s).

Lemma qsort_perm_eq (s1 s2 : seq nat) :
  perm_eq s1 s2 -> CMath_qsort s1 = CMath_qsort s2.
Proof.
move=> eq_s; apply: (sorted_eq leq_trans anti_leq) => //.
apply: perm_trans (qsort_perm s1) _; apply: perm_trans eq_s _.
by rewrite perm_sym.
Qed.

(** X11: the stored basis depends on the shuffle only through the set of
    its first m entries: two shuffles that draw the same m indices, in
    whatever order, give the same basis. *)
Theorem sub_sample_rkhs_basis_order_free (est : Nystrom F) (m : nat) :
  (m <= get_num_lhs est * get_num_dimensions est)%N ->
  let ND := (get_num_lhs est * get_num_dimensions est)%N in
  perm_eq (take m (CMath_permute (iota 0 ND)))
          (take m (CMath_permute' (iota 0 ND))) ->
  sub_sample_rkhs_basis CMath_permute CMath_qsort est m =
  sub_sample_rkhs_basis CMath_permute' CMath_qsort est m.
Proof.
move=> le_m ND same_draw.
rewrite (@sub_sample_rkhs_basisE CMath_permute CMath_qsort permute_perm) //.
rewrite (@sub_sample_rkhs_basisE CMath_permute' CMath_qsort permute_perm') //.
exact: qsort_perm_eq.
Qed.

(** X12: with the target size m = N*D the constructor stores the full
    basis 0, 1, ..., N*D-1, whatever the shuffle. *)
Theorem Nystrom_of_size_full_basis (b : Base F) :
  let ND := (get_num_lhs b * get_num_dimensions b)%N in
  Nystrom_of_size CMath_permute CMath_qsort b ND =
  Returns (mkNystrom b (iota 0 ND)).
Proof.
move=> ND; rewrite /Nystrom_of_size.
rewrite (@sub_sample_rkhs_basisE CMath_permute CMath_qsort permute_perm) //=.
have sz_p : size (CMath_permute (iota 0 ND)) = ND.
  by rewrite (perm_size (permute_perm _)) size_iota.
rewrite -/ND take_oversize ?sz_p //; congr (Returns (mkNystrom _ _)).
apply: (sorted_eq leq_trans anti_leq) => //; first exact: iota_sorted.
exact: perm_trans (qsort_perm _) (permute_perm _).
Qed.

End SamplingFurther.

(** ** The empty basis *)

(** X13: for a fitted estimator on N > 0 samples with an empty basis,
    [log_pdf] returns 0 and [grad] returns the zero vector of length D, at
    every query index and whatever the fitted coefficient is; the oracle
    is not consulted. *)
Theorem empty_basis_evaluators (est : Nystrom F) (t : nat) :
  fitted est -> (0 < get_num_lhs est)%N ->
  m_rkhs_basis_inds est = [::] ->
  log_pdf est t = Returns 0 /\
  grad est t = Returns (nseq (get_num_dimensions est) 0).
Proof.
move=> _ _ empty; rewrite /log_pdf /grad /get_num_rkhs_basis empty /=.
rewrite ?for_loop0 mulr0 mul0r addr0; split=> //; congr Returns.
apply: (@eq_from_nth _ 0); first by rewrite size_mkseq size_map.
move=> j; rewrite size_mkseq size_map size_nseq => lt_j.
by rewrite nth_mkseq ?size_map ?size_nseq // (nth_map 0) ?size_nseq // nth_nseq lt_j mul0r addr0.
Qed.

(** X14: for N > 0 samples with N*N inside the range of an index_t and an
    empty basis, [build_system] returns the 1 x 1 system with A[0,0] = 0
    and b = (0): the system is singular. *)
Theorem empty_basis_system (est : Nystrom F) :
  (0 < get_num_lhs est)%N ->
  (get_num_lhs est * get_num_lhs est < 2 ^ 31)%N ->
  m_rkhs_basis_inds est = [::] ->
  let A := (build_system est).1 in
  [/\ num_rows A = 1%N, num_cols A = 1%N, entry A 0 0 = 0 &
      (build_system est).2 = [:: 0]].
Proof.
move=> N_gt0 fits empty A.
have [rows_A cols_A size_b] := build_system_shape est.
have m0 : get_num_rkhs_basis est = 0%N by rewrite /get_num_rkhs_basis empty.
have xi0 : compute_xi_norm_2 est = 0.
  by rewrite compute_xi_norm_2E // /xi_norm_2_spec m0 big_geq // mulr0.
rewrite m0 in rows_A cols_A size_b; split=> //.
  by rewrite /A build_system_00 m0 big_geq // mul0r xi0 mulr0 addr0.
apply: (@eq_from_nth _ 0) => // j; rewrite size_b ltnS leqn0 => /eqP ->.
by rewrite build_system_b0 xi0 oppr0.
Qed.

(** ** The Gram part of the system *)



(** ** The order of the basis *)

(** X16: xi^2 and the corner A[0,0] of the system depend on the basis
    only as a multiset: reordering the basis indices changes neither. *)
Theorem basis_order_invariant (b : Base F) (J J' : seq nat) :
  perm_eq J J' ->
  compute_xi_norm_2 (mkNystrom b J) = compute_xi_norm_2 (mkNystrom b J') /\
  entry (build_system (mkNystrom b J)).1 0 0 =
  entry (build_system (mkNystrom b J')).1 0 0.
Proof.
move=> eq_J.
pose g idx := \sum_(0 <= a < get_num_lhs b) \sum_(0 <= j < get_num_dimensions b)
  dx_dx_dy_dy_component (m_kernel b)
    (idx %/ get_num_dimensions b)%N a (idx %% get_num_dimensions b)%N j.
pose h idx := (get_num_lhs b)%:R^-1 *
  \sum_(0 <= a < get_num_lhs b) \sum_(0 <= j < get_num_dimensions b)
    dx_dx_dy_component (m_kernel b) a
      (idx %/ get_num_dimensions b)%N j (idx %% get_num_dimensions b)%N.
have xiE K : compute_xi_norm_2 (mkNystrom b K) =
    (\sum_(idx <- K) g idx)
    / (index_t_of_nat (get_num_lhs b * get_num_lhs b))%:~R.
  by rewrite compute_xi_norm_2_sum [in RHS](big_nth 0%N).
have hE K : \sum_(0 <= k < get_num_rkhs_basis (mkNystrom b K))
              h_spec (mkNystrom b K) k ^+ 2 = \sum_(idx <- K) h idx ^+ 2.
  by rewrite [in RHS](big_nth 0%N).
have eq_xi : compute_xi_norm_2 (mkNystrom b J) =
             compute_xi_norm_2 (mkNystrom b J').
  by rewrite !xiE (perm_big _ eq_J).
by rewrite !build_system_00 !hE eq_xi (perm_big _ eq_J).
Qed.

(** ** Linearity in the coefficients *)

(** X17: [log_pdf] is linear in the coefficient vector: for two
    coefficient vectors of length m+1 on the same data, kernel and basis,
    the value at the combination c1 * theta1 + c2 * theta2 is the same
    combination of the two values. *)
Theorem log_pdf_linear (N D : nat) (k : kernel_Base F) (lambda : F)
    (J : seq nat) (theta1 theta2 : seq F) (c1 c2 : F) (t : nat) :
  size theta1 = (size J).+1 -> size theta2 = (size J).+1 ->
  let est theta := mkNystrom (mkBase N D k lambda theta) J in
  let theta := mkseq (fun p => c1 * theta1`_p + c2 * theta2`_p) (size J).+1 in
  exists v1 v2,
    [/\ log_pdf (est theta1) t = Returns v1,
        log_pdf (est theta2) t = Returns v2 &
        log_pdf (est theta) t = Returns (c1 * v1 + c2 * v2)].
Proof.
move=> sz1 sz2 est theta.
have th0 : theta`_0 = c1 * theta1`_0 + c2 * theta2`_0 by rewrite nth_mkseq.
have thS p : (p < size J)%N ->
    theta`_(1 + p) = c1 * theta1`_(1 + p) + c2 * theta2`_(1 + p).
  by move=> lt_p; rewrite nth_mkseq // add1n ltnS.
clearbody theta; rewrite !log_pdfE; do 2!eexists; split=> //.
congr Returns; rewrite /get_num_rkhs_basis /= th0.
set S := \sum_(0 <= p < size J) dx_dx_component _ _ _ _.
pose g p := dx_component k (nth 0%N J p %/ D)%N t (nth 0%N J p %% D)%N.
have -> : \sum_(0 <= p < size J) g p * theta`_(1 + p) =
          c1 * (\sum_(0 <= p < size J) g p * theta1`_(1 + p))
          + c2 * (\sum_(0 <= p < size J) g p * theta2`_(1 + p)).
  rewrite !mulr_sumr -big_split /=; apply: eq_big_nat => p /andP [_ lt_p].
  by rewrite thS //; ring.
by rewrite /g; ring.
Qed.

End Properties.

(** ** The theorems at the concrete instances *)

(** 2 * 2 = 4 fits an index_t. *)
Lemma example_sizes_fit : (2 * 2 < 2 ^ 31)%N.
Proof. by rewrite -[(2 * 2)%N]/(2 ^ 2)%N ltn_exp2l. Qed.




Lemma build_system_symmetric_witness :
  entry (build_system example_est).1 1 2 = entry (build_system example_est).1 2 1.
Proof.
have in_range : basis_in_range example_est by [].
have [_ sym] := build_system_symmetric in_range.
apply: sym => // a b i j _ _ _ _ /=.
by rewrite [(a + b)%N]addnC [(i + j)%N]addnC.
Defined.

(** The symmetry of the inner block rests on the symmetry of the oracle:
    for an oracle that is not the derivative oracle of a symmetric kernel,
    with one sample, two coordinates, the full basis and lambda = 1,
    A[1,2] = 0 and A[2,1] = 1. *)
Lemma build_system_not_symmetric :
  basis_in_range asym_est /\
  entry (build_system asym_est).1 1 2 <> entry (build_system asym_est).1 2 1.
Proof.
split=> //.
rewrite !build_system_block //.
have -> : \sum_(0 <= k < get_num_lhs asym_est * get_num_dimensions asym_est)
            G_spec asym_est k 0 * G_spec asym_est k 1 =
          \sum_(0 <= k < get_num_lhs asym_est * get_num_dimensions asym_est)
            G_spec asym_est k 1 * G_spec asym_est k 0.
  by apply: eq_bigr => k _; rewrite mulrC.
move/addrI; rewrite /Ghat_spec /G_spec /basis_coord /basis_sample /=.
by rewrite mulr0 mulr1 => /eqP; rewrite eq_sym oner_eq0.
Qed.

Lemma hessian_diag_is_diagonal_witness :
  exists H d,
    [/\ hessian example_est 1 = Returns H, hessian_diag example_est 1 = Returns d,
        size d = 2 & forall i, (i < 2)%N -> d`_i = entry H i i].
Proof.
have fit : fitted example_est by [].
have in_range : basis_in_range example_est by [].
have lt_t : (1 < get_num_lhs example_est)%N by [].
by apply: (hessian_diag_is_diagonal fit in_range lt_t).
Defined.

(** [log_pdf(N)] returns a value instead of raising: a fitted estimator
    on N = 2 samples with the empty basis.  The loop over the basis does
    not run, the oracle is not consulted, and the value is
    theta[0] * 0 / 2 + 0 = 0. *)
Lemma log_pdf_at_N_returns :
  [/\ fitted empty_est, get_num_lhs empty_est = 2%N,
      log_pdf empty_est 2 = Returns 0 &
      log_pdf empty_est 2 <> Raises OutOfRange].
Proof.
have eq0 : log_pdf empty_est 2 = Returns 0.
  by rewrite log_pdfE !big_geq // mulr0 mul0r subr0.
by split=> //; rewrite eq0.
Qed.

Lemma evaluators_do_not_check_range_witness :
  (get_num_lhs example_est <= 2)%N /\
  exists d, hessian_diag example_est 2 = Returns d /\ size d = 2%N.
Proof.
have fit : fitted example_est by [].
have N_gt0 : (0 < get_num_lhs example_est)%N by [].
have long : forall k, (k < get_num_rkhs_basis example_est)%N ->
    (get_num_dimensions example_est <=
     size (dx_i_dx_i_dx_j_component (m_kernel example_est)
             (basis_sample example_est k) 2 (basis_coord example_est k)))%N /\
    (get_num_dimensions example_est <=
     size (dx_i_dx_j_component (m_kernel example_est)
             (basis_sample example_est k) 2 (basis_coord example_est k)))%N.
  by [].
have le_t : (get_num_lhs example_est <= 2)%N by [].
have [_ _ _ [d eq_d [sz_d _]]] :=
  evaluators_do_not_check_range fit N_gt0 long le_t.
exact (conj le_t (ex_intro _ d (conj eq_d sz_d))).
Defined.

(** A basis with a duplicate, a basis with an entry outside [0, N*D) (here
    N*D = 4) and the empty basis are accepted, and a decreasing basis is
    stored in its decreasing order. *)
Lemma Nystrom_of_basis_accepts_invalid :
  [/\ Nystrom_of_basis example_base [:: 3; 3]%N <> Raises InvalidBasis,
      Nystrom_of_basis example_base [:: 7]%N <> Raises InvalidBasis,
      Nystrom_of_basis example_base [::] <> Raises InvalidBasis &
      Nystrom_of_basis example_base [:: 3; 0]%N =
      Returns (mkNystrom example_base [:: 3; 0]%N)].
Proof. by []. Qed.

Lemma Nystrom_of_size_basis_witness :
  exists est,
    Nystrom_of_size rev (sort leq) example_base 2 = Returns est /\
    m_rkhs_basis_inds est = [:: 2; 3]%N.
Proof.
have le_m : (2 <= get_num_lhs example_base * get_num_dimensions example_base)%N.
  by [].
have perm_rev' : forall s : seq nat, perm_eq (rev s) s.
  by move=> s; rewrite perm_rev.
have perm_sort' : forall s : seq nat, perm_eq (sort leq s) s.
  by move=> s; rewrite perm_sort.
have sorted_sort : forall s : seq nat, sorted leq (sort leq s).
  by move=> s; apply: sort_sorted; apply: leq_total.
have [est [eq_est _]] :=
  Nystrom_of_size_basis perm_rev' perm_sort' sorted_sort le_m.
by exists est; split=> //; case: eq_est => <-.
Defined.

Lemma example_matrix_diagonal (r c : nat) :
  (r < num_rows example_matrix)%N -> (c < num_rows example_matrix)%N ->
  r != c -> entry example_matrix r c = 0.
Proof. by move=> _ _ /negbTE /= ->. Qed.

(** diag(2, -3) with eps = 1/8: tau = 1/2, the pseudo-inverse is
    diag(1/2, 0). *)
Lemma pinv_self_adjoint_spec_witness :
  exists P,
    [/\ pinv_self_adjoint (1 / 8%:R) (@diag_solver rat) example_matrix = Returns P,
        entry P 0 0 = 1 / 2%:R, entry P 1 1 = 0 & entry P 0 1 = 0].
Proof.
have square : num_cols example_matrix = num_rows example_matrix by [].
have m_gt0 : (0 < num_rows example_matrix)%N by [].
have dec := diag_solver_decomposition example_matrix_diagonal.
have [P [tau [retP _ _ _ diagP]]] :=
  pinv_self_adjoint_spec (1 / 8%:R) square m_gt0 dec.
have [[M [mem_M le_M] tauE] entP] := diagP example_matrix_diagonal.
have M2 : M = 2%:R.
  have mem2 : 2%:R \in [seq entry example_matrix i i
                         | i <- iota 0 (num_rows example_matrix)].
    by rewrite /= inE eqxx.
  move: mem_M (le_M _ mem2); rewrite /= !inE => /orP [/eqP -> //|/eqP ->].
  by [].
have tau_lt : tau < 2%:R by rewrite tauE M2 /=; lra.
have tau_ge : (tau < - 3%:R) = false.
  by apply/negbTE; rewrite -leNgt tauE M2 /=; lra.
by exists P; split; rewrite ?entP //= ?tau_lt ?tau_ge.
Defined.

Lemma pinv_self_adjoint_truncates_nonpositive_witness :
  exists P inv_s,
    pinv_self_adjoint (1 / 8%:R) (@diag_solver rat) example_matrix = Returns P /\
    inv_s`_1 = 0 /\
    forall r c, (r < 2)%N -> (c < 2)%N ->
      entry P r c =
      \sum_(0 <= j < 2) entry (diag_solver example_matrix).2 r j * inv_s`_j
                        * entry (diag_solver example_matrix).2 c j.
Proof.
have square : num_cols example_matrix = num_rows example_matrix by [].
have sz_s : size (diag_solver example_matrix).1 = num_rows example_matrix.
  by [].
have eps_ge0 : 0 <= 1 / 8%:R :> rat by [].
have small : (num_rows example_matrix)%:R * (1 / 8%:R) < 1 :> rat by [].
have [P [inv_s [retP entP _ inv0 _]]] :=
  @pinv_self_adjoint_truncates_nonpositive rat (1 / 8%:R) (@diag_solver rat)
    example_matrix square sz_s eps_ge0 small.
by exists P, inv_s; split=> //; split=> //; apply: inv0.
Defined.

(** ** The further properties at the concrete instances *)

Lemma idx_to_ai_bijection_witness :
  idx_to_ai 3 2 = (1, 1)%N /\ idx_to_ai (1 * 2 + 1) 2 = (1, 1)%N.
Proof.
have D_gt0 : (0 < 2)%N by [].
have [split_idx join_ai] := idx_to_ai_bijection D_gt0.
by split; [| apply: join_ai].
Defined.

Lemma grad_formula_witness :
  exists g, grad example_est 1 = Returns g /\ size g = 2.
Proof.
have long : forall k, (k < get_num_rkhs_basis example_est)%N ->
    (get_num_dimensions example_est <=
     size (dx_i_dx_i_dx_j_component (m_kernel example_est)
             (basis_sample example_est k) 1 (basis_coord example_est k)))%N /\
    (get_num_dimensions example_est <=
     size (dx_i_dx_j_component (m_kernel example_est)
             (basis_sample example_est k) 1 (basis_coord example_est k)))%N.
  by [].
by have [g [eq_g sz_g _]] := grad_formula long; exists g.
Defined.

Lemma beta_full_fake_lifts_witness :
  size (beta_full_fake example_est) = 4 /\
  (beta_full_fake example_est)`_3 = 3%:R /\
  (beta_full_fake example_est)`_1 = 0.
Proof.
have in_range : basis_in_range example_est by [].
have uniq_J : uniq (m_rkhs_basis_inds example_est) by [].
have [sz at_J off_J] := beta_full_fake_lifts in_range uniq_J.
split; first exact: sz.
by split; [exact: (at_J 1%N isT) | exact: off_J].
Defined.

Lemma beta_full_fake_full_basis_witness :
  beta_full_fake full_est = [:: 2%:R; 3%:R; 4%:R; 5%:R].
Proof.
have full : m_rkhs_basis_inds full_est =
            iota 0 (get_num_lhs full_est * get_num_dimensions full_est).
  by [].
have fit : fitted full_est by [].
exact: (beta_full_fake_full_basis full fit).
Defined.

Lemma hessian_formula_witness :
  exists H, hessian example_est 1 = Returns H /\ num_rows H = 2.
Proof.
have in_range : basis_in_range example_est by [].
have uniq_J : uniq (m_rkhs_basis_inds example_est) by [].
by have [H [eq_H rows_H _ _]] := hessian_formula 1 in_range uniq_J; exists H.
Defined.

Lemma hessian_diag_formula_witness :
  exists d, hessian_diag example_est 1 = Returns d /\ size d = 2.
Proof.
have in_range : basis_in_range example_est by [].
have uniq_J : uniq (m_rkhs_basis_inds example_est) by [].
by have [d [eq_d sz_d _]] := hessian_diag_formula 1 in_range uniq_J; exists d.
Defined.

Lemma inv_eigenvalues_inverts_witness :
  let s : seq rat := [:: 2%:R; - 3%:R] in
  let tau := 1 / 8%:R * 2%:R * maxCoeff s in
  let inv_s := inv_eigenvalues 2 s tau in
  (tau < s`_1 -> s`_1 != 0 /\ inv_s`_1 * s`_1 = 1) /\
  (s`_1 <= tau -> inv_s`_1 = 0).
Proof.
move=> s.
have sz_s : size s = 2%N by [].
have eps_ge0 : 0 <= 1 / 8%:R :> rat by rewrite divr_ge0 ?ler01 ?ler0n.
have lt_i : (1 < 2)%N by [].
exact (inv_eigenvalues_inverts sz_s eps_ge0 lt_i).
Defined.

Lemma pinv_self_adjoint_reflexive_witness :
  exists P,
    pinv_self_adjoint (1 / 8%:R) (@diag_solver rat) example_matrix = Returns P /\
    entry (eigen_mul (eigen_mul P example_matrix) P) 0 0 = entry P 0 0.
Proof.
have square : num_cols example_matrix = num_rows example_matrix by [].
have dec := diag_solver_decomposition example_matrix_diagonal.
have eps_ge0 : 0 <= 1 / 8%:R :> rat by rewrite divr_ge0 ?ler01 ?ler0n.
have [P [retP PAP _ _]] := pinv_self_adjoint_reflexive square dec eps_ge0.
by exists P; split=> //; apply: PAP.
Defined.

Lemma singular_matrix_diagonal (r c : nat) :
  (r < num_rows singular_matrix)%N -> (c < num_rows singular_matrix)%N ->
  r != c -> entry singular_matrix r c = 0.
Proof. by case: r c => [|r] [|c]. Qed.

Lemma pinv_self_adjoint_generalized_inverse_witness :
  exists P,
    pinv_self_adjoint (1 / 8%:R) (@diag_solver rat) singular_matrix = Returns P /\
    entry (eigen_mul (eigen_mul singular_matrix P) singular_matrix) 0 0 = 2%:R.
Proof.
have square : num_cols singular_matrix = num_rows singular_matrix by [].
have dec := diag_solver_decomposition singular_matrix_diagonal.
have eps_ge0 : 0 <= 1 / 8%:R :> rat by rewrite divr_ge0 ?ler01 ?ler0n.
have cut0 : forall j, (j < num_rows singular_matrix)%N ->
    (diag_solver singular_matrix).1`_j <=
      1 / 8%:R * (num_rows singular_matrix)%:R
      * maxCoeff (diag_solver singular_matrix).1 ->
    (diag_solver singular_matrix).1`_j = 0.
  have -> : maxCoeff (diag_solver singular_matrix).1 = 2%:R.
    by rewrite /maxCoeff /= max_l.
  case=> [|[|j]].
  - move=> _ /= le_tau; lra.
  - by move=> _ _ /=.
  - by rewrite !ltnS ltn0.
have [P [retP APA]] :=
  pinv_self_adjoint_generalized_inverse square dec eps_ge0 cut0.
by exists P; split=> //; apply: APA.
Defined.

Lemma sub_sample_rkhs_basis_order_free_witness :
  sub_sample_rkhs_basis rev (sort leq) example_est 4 =
  sub_sample_rkhs_basis id (sort leq) example_est 4.
Proof.
have perm_rev' : forall s : seq nat, perm_eq (rev s) s.
  by move=> s; rewrite perm_rev.
have perm_id : forall s : seq nat, perm_eq (id s) s by move=> s.
have perm_sort' : forall s : seq nat, perm_eq (sort leq s) s.
  by move=> s; rewrite perm_sort.
have sorted_sort : forall s : seq nat, sorted leq (sort leq s).
  by move=> s; apply: sort_sorted; apply: leq_total.
have le_m : (4 <= get_num_lhs example_est * get_num_dimensions example_est)%N.
  by [].
apply: (sub_sample_rkhs_basis_order_free perm_rev' perm_id perm_sort'
          sorted_sort le_m).
by [].
Defined.

Lemma Nystrom_of_size_full_basis_witness :
  Nystrom_of_size rev (sort leq) example_base 4 =
  Returns (mkNystrom example_base [:: 0; 1; 2; 3]%N).
Proof.
have perm_rev' : forall s : seq nat, perm_eq (rev s) s.
  by move=> s; rewrite perm_rev.
have perm_sort' : forall s : seq nat, perm_eq (sort leq s) s.
  by move=> s; rewrite perm_sort.
have sorted_sort : forall s : seq nat, sorted leq (sort leq s).
  by move=> s; apply: sort_sorted; apply: leq_total.
exact (Nystrom_of_size_full_basis perm_rev' perm_sort' sorted_sort example_base).
Defined.

Lemma empty_basis_evaluators_witness :
  log_pdf empty_est 1 = Returns 0 /\ grad empty_est 1 = Returns [:: 0; 0].
Proof.
have fit : fitted empty_est by [].
have N_gt0 : (0 < get_num_lhs empty_est)%N by [].
have empty : m_rkhs_basis_inds empty_est = [::] by [].
exact (empty_basis_evaluators 1 fit N_gt0 empty).
Defined.

Lemma empty_basis_system_witness :
  (build_system empty_est).2 = [:: 0].
Proof.
have N_gt0 : (0 < get_num_lhs empty_est)%N by [].
have fits : (get_num_lhs empty_est * get_num_lhs empty_est < 2 ^ 31)%N.
  exact example_sizes_fit.
have empty : m_rkhs_basis_inds empty_est = [::] by [].
have [_ _ _ b0] := empty_basis_system N_gt0 fits empty.
exact b0.
Defined.


Lemma basis_order_invariant_witness :
  compute_xi_norm_2 (mkNystrom example_base [:: 0; 3]%N) =
  compute_xi_norm_2 (mkNystrom example_base [:: 3; 0]%N).
Proof.
have eq_J : perm_eq [:: 0; 3]%N [:: 3; 0]%N by [].
have [eq_xi _] := basis_order_invariant example_base eq_J.
exact eq_xi.
Defined.

Lemma log_pdf_linear_witness :
  exists v1 v2 : rat,
    log_pdf (mkNystrom (mkBase 2 2 example_kernel 1 [:: 1; 0; 0]) [:: 0; 3]%N) 1
      = Returns v1 /\
    log_pdf (mkNystrom (mkBase 2 2 example_kernel 1 [:: 0; 1; 1]) [:: 0; 3]%N) 1
      = Returns v2.
Proof.
have sz1 : size [:: 1; 0; 0 : rat] = (size [:: 0; 3]%N).+1 by [].
have sz2 : size [:: 0; 1; 1 : rat] = (size [:: 0; 3]%N).+1 by [].
have [v1 [v2 [eq1 eq2 _]]] :=
  log_pdf_linear 2 2 example_kernel 1 2%:R 3%:R 1 sz1 sz2.
exact (ex_intro _ v1 (ex_intro _ v2 (conj eq1 eq2))).
Defined.
